(** * dungeon-template: the stacking inventory and the pickup field

    A shallow embedding of [src/inventory.ts] (class [InventoryManager]) and of
    the pickup manager (class [ItemPickupManager]), with the properties the
    specification states about them.

    Conventions of the embedding.
    - Module [Inventory] is [addItem] on integer counts and quantities: a
      JavaScript [number] is an integer [Z] there, and the catalog is looked
      up by its own keys. Module [InventoryJS] is the same code on any
      binary64 number (fractions, NaN, rounding) and with the members the
      catalog object inherits from [Object.prototype]; the statements that
      depend on such values are made there.
    - World coordinates and the animation clock are IEEE binary64 values
      ([PrimFloat.float]), the same format as a JavaScript [number].
    - The array [items : (InventoryItem | null)[]] is a [list (option
      InventoryItem)], read with [!!] and written with [<[i:=x]>]; the objects
      stored in it are reachable from the array only, so updating a field of
      [items[i]] is an update of position [i].
    - The DOM side of the class ([createUI], [render], [toggleVisibility]) does
      not read or write [items] other than for display; the claims about
      [addItem] and [isFull] are stated on the slots alone, and module
      [InventoryUI] adds the container and what [render] puts in it. *)

From Stdlib Require Import ZArith Lia Uint63 Floats QArith Qround.
From stdpp Require Import base option list strings gmap pretty.

(* ===================================================================== *)
(** ** Part I. Definitions *)
(* ===================================================================== *)

Module Inventory.

Local Open Scope Z_scope.

(** [interface InventoryItem]. *)
Record InventoryItem := mkItem {
  type : string;
  count : Z;
  maxStack : Z;
  icon : string;
  name : string;
  description : string
}.

(** [Omit<InventoryItem, 'count'>], the type of a catalog entry. *)
Record ItemDefinition := mkDef {
  def_type : string;
  def_maxStack : Z;
  def_icon : string;
  def_name : string;
  def_description : string
}.

(** [ITEM_DEFINITIONS]. The lookup [ITEM_DEFINITIONS[type]] is the lookup of
    this map: [None] stands for [undefined]. (The members the object inherits
    from [Object.prototype], such as [toString], are in
    [InventoryJS.ITEM_DEFINITIONS].) *)
Definition ITEM_DEFINITIONS : gmap string ItemDefinition :=
  <["gold" := mkDef "gold" 99 "gold-icon" "Gold Coin" "Currency of the realm."]>
  (<["potion" := mkDef "potion" 5 "potion-icon" "Health Potion" "Restores 25 HP."]>
  (<["key" := mkDef "key" 1 "key-icon" "Dungeon Key" "Unlocks a door."]> ∅)).

(** The object literal [{ ...def, count: add }]. *)
Definition spread_def (def : ItemDefinition) (add : Z) : InventoryItem :=
  mkItem (def_type def) add (def_maxStack def) (def_icon def) (def_name def)
         (def_description def).

(** [item.count += add]. *)
Definition add_count (item : InventoryItem) (add : Z) : InventoryItem :=
  mkItem (type item) (count item + add) (maxStack item) (icon item) (name item)
         (description item).

(** A position of the array: [InventoryItem | null]. *)
Abbreviation slot := (option InventoryItem).

(** [private capacity: number = 10] and the constructor's
    [new Array(this.capacity).fill(null)]. *)
Definition capacity : nat := 10.

Definition fresh (cap : nat) : list slot := replicate cap None.

Definition constructor : list slot := fresh capacity.

(** The condition of the first loop:
    [item && item.type === type && item.count < item.maxStack]. *)
Definition stackable (ty : string) (item : InventoryItem) : bool :=
  String.eqb (type item) ty && (count item <? maxStack item).

(** First loop of [addItem]: [for (let i = 0; i < this.items.length; i++)],
    from index [i] on. [fuel] bounds the number of iterations left; the loop
    leaves through its condition ([items !! i = None]) or through [break]. *)
Fixpoint stack_loop (fuel i : nat) (ty : string) (items : list slot)
    (remaining : Z) : list slot * Z :=
  match fuel with
  | O => (items, remaining)
  | S fuel' =>
    match items !! i with
    | None => (items, remaining)
    | Some None => stack_loop fuel' (S i) ty items remaining
    | Some (Some item) =>
      if stackable ty item then
        let space := maxStack item - count item in
        let add := Z.min space remaining in
        let items' := <[i := Some (add_count item add)]> items in
        let remaining' := remaining - add in
        if remaining' =? 0 then (items', remaining')
        else stack_loop fuel' (S i) ty items' remaining'
      else stack_loop fuel' (S i) ty items remaining
    end
  end.

(** How the second loop ends: normally, or with the [TypeError] raised by
    reading [def.maxStack] when [def] is [undefined]. Both carry the array as
    it stands at that point. *)
Inductive loop_end :=
| Done (items : list slot) (remaining : Z)
| Raised (items : list slot).

(** Second loop of [addItem], from index [i] on. *)
Fixpoint place_loop (fuel i : nat) (def : option ItemDefinition)
    (items : list slot) (remaining : Z) : loop_end :=
  match fuel with
  | O => Done items remaining
  | S fuel' =>
    match items !! i with
    | None => Done items remaining
    | Some (Some _) => place_loop fuel' (S i) def items remaining
    | Some None =>
      match def with
      | None => Raised items
      | Some d =>
        let add := Z.min (def_maxStack d) remaining in
        let items' := <[i := Some (spread_def d add)]> items in
        let remaining' := remaining - add in
        if remaining' =? 0 then Done items' remaining'
        else place_loop fuel' (S i) def items' remaining'
      end
    end
  end.

(** What a call of [addItem] does: it returns a boolean, or it throws. In
    both cases [items] is the array the object is left with. *)
Inductive outcome :=
| Returned (ok : bool) (items : list slot)
| TypeError (items : list slot).

Definition items_of (o : outcome) : list slot :=
  match o with Returned _ items => items | TypeError items => items end.

(** [public addItem(type: ItemType, count: number = 1): boolean], for an
    integer [count] on slots of integer counts; [InventoryJS.addItem] is the
    method on any number. *)
Definition addItem (ty : string) (cnt : Z) (items : list slot) : outcome :=
  let def := ITEM_DEFINITIONS !! ty in
  let '(items1, remaining1) := stack_loop (length items) 0 ty items cnt in
  if 0 <? remaining1 then
    match place_loop (length items1) 0 def items1 remaining1 with
    | Done items2 remaining2 => Returned (remaining2 =? 0) items2
    | Raised items2 => TypeError items2
    end
  else Returned (remaining1 =? 0) items1.

(** The call [addItem(type)], with the default [count = 1]. *)
Definition addItem_default (ty : string) (items : list slot) : outcome :=
  addItem ty 1 items.

(** [public isFull(): boolean], that is
    [items.every(item => item !== null && item.count >= item.maxStack)]. *)
Definition isFull (items : list slot) : bool :=
  forallb (fun item : slot =>
             match item with
             | Some it => maxStack it <=? count it
             | None => false
             end) items.

(** A sequence of [addItem] calls on one object: each call starts from the
    array the previous one left, whether that one returned or threw. *)
Fixpoint run (calls : list (string * Z)) (items : list slot) : list slot :=
  match calls with
  | [] => items
  | (ty, cnt) :: rest => run rest (items_of (addItem ty cnt items))
  end.

(** *** The placement as the specification words it *)

(** Pass (a): top up the slots of type [ty] that are below their max stack
    size, in slot order, each taking as much as fits. *)
Fixpoint top_up (ty : string) (remaining : Z) (slots : list slot)
    : list slot * Z :=
  match slots with
  | [] => ([], remaining)
  | None :: rest =>
    let '(rest', r) := top_up ty remaining rest in (None :: rest', r)
  | Some item :: rest =>
    if stackable ty item then
      let fits := Z.min (maxStack item - count item) remaining in
      let '(rest', r) := top_up ty (remaining - fits) rest in
      (Some (add_count item fits) :: rest', r)
    else
      let '(rest', r) := top_up ty remaining rest in (Some item :: rest', r)
  end.

(** Pass (b): while something remains, give it to the empty slots in slot
    order, each new slot taking up to [maxStack]. *)
Fixpoint fill_empty (d : ItemDefinition) (remaining : Z) (slots : list slot)
    : list slot * Z :=
  match slots with
  | [] => ([], remaining)
  | s :: rest =>
    if remaining <=? 0 then (slots, remaining)
    else match s with
         | None =>
           let fits := Z.min (def_maxStack d) remaining in
           let '(rest', r) := fill_empty d (remaining - fits) rest in
           (Some (spread_def d fits) :: rest', r)
         | Some _ =>
           let '(rest', r) := fill_empty d remaining rest in (s :: rest', r)
         end
  end.

Definition two_pass (d : ItemDefinition) (ty : string) (cnt : Z)
    (slots : list slot) : list slot * Z :=
  let '(slots1, r1) := top_up ty cnt slots in fill_empty d r1 slots1.

(** *** Measures and invariants used in the statements *)

(** Units of type [ty] held: the sum of the counts of the slots of that type. *)
Fixpoint held (ty : string) (slots : list slot) : Z :=
  match slots with
  | [] => 0
  | Some item :: rest =>
    (if String.eqb (type item) ty then count item else 0) + held ty rest
  | None :: rest => held ty rest
  end.

(** Number of occupied slots holding type [ty]. *)
Fixpoint slots_of (ty : string) (slots : list slot) : Z :=
  match slots with
  | [] => 0
  | Some item :: rest =>
    (if String.eqb (type item) ty then 1 else 0) + slots_of ty rest
  | None :: rest => slots_of ty rest
  end.

(** Total quantity asked for type [ty] by a sequence of calls. *)
Fixpoint requested (ty : string) (calls : list (string * Z)) : Z :=
  match calls with
  | [] => 0
  | (ty', cnt) :: rest =>
    (if String.eqb ty' ty then cnt else 0) + requested ty rest
  end.

(** An occupied slot is a copy of its catalog entry with a count between 1
    and the entry's max stack size. *)
Definition slot_ok (s : slot) : Prop :=
  match s with
  | None => True
  | Some item =>
    ∃ d, ITEM_DEFINITIONS !! type item = Some d
         ∧ maxStack item = def_maxStack d
         ∧ 1 <= count item <= def_maxStack d
  end.

Definition slots_ok (slots : list slot) : Prop := Forall slot_ok slots.

(** No room for type [ty]: no empty slot, and no slot of that type below its
    max stack size. *)
Definition no_room (ty : string) (slots : list slot) : Prop :=
  Forall (fun s : slot =>
            match s with
            | None => False
            | Some item => stackable ty item = false
            end) slots.

Definition has_empty (slots : list slot) : bool :=
  existsb (fun s : slot => match s with None => true | Some _ => false end) slots.

(** Every occupied slot holds a type of the catalog. *)
Definition catalogued (slots : list slot) : Prop :=
  Forall (fun s : slot =>
            match s with
            | None => True
            | Some item => is_Some (ITEM_DEFINITIONS !! type item)
            end) slots.

(** The scenario of the specification: three potion pickups of 1, 2 and 3
    units on a new inventory. *)
Definition potion (n : Z) : InventoryItem :=
  mkItem "potion" n 5 "potion-icon" "Health Potion" "Restores 25 HP.".

Definition potion_scenario : Prop :=
  ∃ s1 s2 s3 : list slot,
    addItem "potion" 1 constructor = Returned true s1
    ∧ addItem "potion" 2 s1 = Returned true s2
    ∧ addItem "potion" 3 s2 = Returned true s3
    ∧ s3 = Some (potion 5) :: Some (potion 1) :: replicate 8 None.

(** A slot that is empty or holds at most [M] units of type [ty]. *)
Definition stack_of (ty : string) (M : Z) (s : slot) : Prop :=
  match s with
  | None => True
  | Some it => type it = ty ∧ maxStack it = M ∧ count it <= M
  end.

(** Every call of the sequence returns [true]. *)
Fixpoint all_succeed (calls : list (string * Z)) (items : list slot) : bool :=
  match calls with
  | [] => true
  | (ty, cnt) :: rest =>
    match addItem ty cnt items with
    | Returned true items' => all_succeed rest items'
    | _ => false
    end
  end.

(** *** Vocabulary of the further properties *)

(** Free space in the slots of type [ty] that are below their max stack
    size. *)
Fixpoint space_in_stacks (ty : string) (slots : list slot) : Z :=
  match slots with
  | [] => 0
  | Some item :: rest =>
    (if stackable ty item then maxStack item - count item else 0)
    + space_in_stacks ty rest
  | None :: rest => space_in_stacks ty rest
  end.

(** Number of empty slots. *)
Fixpoint empty_slots (slots : list slot) : Z :=
  match slots with
  | [] => 0
  | None :: rest => 1 + empty_slots rest
  | Some _ :: rest => empty_slots rest
  end.

(** Units of a type of definition [d] that the inventory can still take. *)
Definition room (ty : string) (d : ItemDefinition) (slots : list slot) : Z :=
  space_in_stacks ty slots + def_maxStack d * empty_slots slots.

(** Some slot holds type [ty] below its max stack size. *)
Definition has_stackable (ty : string) (slots : list slot) : bool :=
  existsb (fun s : slot =>
             match s with Some item => stackable ty item | None => false end)
          slots.

(** What a call of [addItem] for type [ty] and quantity [cnt] may do to one
    slot: an occupied slot keeps its item, whose count moves by some [k],
    with [k = 0] for another type and [0 <= k] for a quantity that is not
    negative; an empty slot may be filled. *)
Definition slot_kept (ty : string) (cnt : Z) (s s' : slot) : Prop :=
  match s, s' with
  | Some item, Some item' =>
    ∃ k, item' = add_count item k
         ∧ (type item ≠ ty → k = 0) ∧ (0 <= cnt → 0 <= k)
  | Some _, None => False
  | None, _ => True
  end.

End Inventory.

Module InventoryUI.
Import Inventory.
Local Open Scope Z_scope.

(** The icon [div] of an occupied slot: its [style.backgroundColor] and
    [style.borderRadius]. *)
Record Icon := mkIcon { backgroundColor : string; borderRadius : string }.

(** A [div.inv-slot]: its border colour, its icon and its count overlay (the
    [innerText] of the count [div]) when it has them. The styles that are the
    same for every slot are left out. *)
Record SlotDiv := mkSlotDiv {
  borderColor : string;
  slot_icon : option Icon;
  slot_count : option string
}.

(** The children of the container: the title [div] and the slot [div]s. *)
Inductive Element :=
| Title (innerText : string)
| InvSlot (s : SlotDiv).

(** The [div#inventory-ui]: its [style.display] and its children. *)
Record Container := mkContainer { display : string; children : list Element }.

(** The fields of [InventoryManager]. *)
Record manager := mkManager {
  items : list slot;
  isVisible : bool;
  container : option Container
}.

(** The background colour [render] gives the icon of a type; the style keeps
    its initial empty value for any other type. *)
Definition icon_color (ty : string) : string :=
  if String.eqb ty "gold" then "gold"
  else if String.eqb ty "potion" then "red"
  else if String.eqb ty "key" then "silver"
  else "".

(** The [div] that [render] builds for one slot. [item.count.toString()] is
    the decimal writing of the count. *)
Definition slot_div (item : slot) : SlotDiv :=
  match item with
  | None => mkSlotDiv "#666" None None
  | Some it =>
    mkSlotDiv
      (if maxStack it <=? count it then "#aa0" else "#666")
      (Some (mkIcon (icon_color (type it))
                    (if String.eqb (type it) "potion" then "50%" else "0")))
      (if 1 <? maxStack it then Some (pretty (count it)) else None)
  end.

Definition is_inv_slot (e : Element) : bool :=
  match e with InvSlot _ => true | Title _ => false end.

(** [private render(): void]: remove the elements of class [inv-slot], then
    append one [div] per slot. *)
Definition render (u : manager) : manager :=
  match container u with
  | None => u
  | Some c =>
    mkManager (items u) (isVisible u)
      (Some (mkContainer (display c)
               (List.filter (fun e => negb (is_inv_slot e)) (children c)
                ++ (InvSlot <$> (slot_div <$> items u)))))
  end.

(** [private createUI(): void]. *)
Definition createUI (u : manager) : manager :=
  render (mkManager (items u) (isVisible u)
            (Some (mkContainer "none" [Title "INVENTORY"]))).

(** [constructor()]. *)
Definition new_manager : manager :=
  createUI (mkManager constructor false None).

(** [public toggleVisibility(): void]. *)
Definition toggleVisibility (u : manager) : manager :=
  let visible := negb (isVisible u) in
  mkManager (items u) visible
    (match container u with
     | Some c => Some (mkContainer (if visible then "grid" else "none") (children c))
     | None => None
     end).

(** [public addItem(type, count)] with its call of [render]: the boolean
    returned, or [None] when the call throws, which skips [render]. *)
Definition addItem_ui (ty : string) (cnt : Z) (u : manager)
    : option bool * manager :=
  match addItem ty cnt (items u) with
  | Returned ok items' =>
    (Some ok, render (mkManager items' (isVisible u) (container u)))
  | TypeError items' => (None, mkManager items' (isVisible u) (container u))
  end.

(** The public operations, and a sequence of them on one object. *)
Inductive operation :=
| AddItem (ty : string) (cnt : Z)
| ToggleVisibility.

Definition perform (u : manager) (op : operation) : manager :=
  match op with
  | AddItem ty cnt => (addItem_ui ty cnt u).2
  | ToggleVisibility => toggleVisibility u
  end.

Definition perform_all (ops : list operation) (u : manager) : manager :=
  foldl perform u ops.

(** The slot [div]s on display, in document order. *)
Definition shown (u : manager) : list SlotDiv :=
  match container u with
  | None => []
  | Some c =>
    omap (fun e => match e with InvSlot s => Some s | Title _ => None end)
         (children c)
  end.

(** The [addItem] calls of a sequence of operations. *)
Definition adds (ops : list operation) : list (string * Z) :=
  omap (fun op => match op with
                  | AddItem ty cnt => Some (ty, cnt)
                  | ToggleVisibility => None
                  end) ops.

Definition toggles (ops : list operation) : nat :=
  length (List.filter (fun op => match op with
                                 | ToggleVisibility => true
                                 | AddItem _ _ => false
                                 end) ops).

(** The invariant of a manager in use: it has its container, its slots all
    hold catalog types, and the slot [div]s on display are those of its
    slots. *)
Definition in_sync (u : manager) : Prop :=
  is_Some (container u)
  ∧ catalogued (items u)
  ∧ shown u = slot_div <$> items u
  ∧ length (items u) = capacity.

End InventoryUI.

Module Pickups.

Local Open Scope nat_scope.


(** A decimal literal denotes the nearest binary64 value, as in JavaScript. *)
#[local] Set Warnings "-inexact-float".

(** [THREE.Vector3]. *)
Record Vector3 := mkVector3 { vx : float; vy : float; vz : float }.

(** [THREE.Texture]: the 1x1 white [DataTexture] used as a placeholder, or
    the texture the loader delivered for a URL. *)
Inductive Texture :=
| Placeholder
| Loaded (url : string).

(** Modelled from the spec: the type [ItemTemplate] is imported from
    [./inventory], whose declaration of it is not in the sources; the
    specification gives it an identifier and an icon reference, the two
    fields the pickup manager reads ([tpl.id], [tpl.icon]). *)
Record ItemTemplate := mkTemplate { id : string; icon : string }.

Module ItemPickupSpawn.
(** [interface ItemPickupSpawn]; [quantity] is any finite number, [y] is
    optional. (A NaN quantity, which [Math.max(1, Math.floor(q))] hands on as
    NaN, and the infinities are outside the model.) *)
Record t := mk {
  itemId : string;
  quantity : Q;
  x : float;
  z : float;
  y : option float
}.
End ItemPickupSpawn.

(** [THREE.Sprite] with its own [THREE.SpriteMaterial]. [sprite_id] is the
    identity of the object: the scene refers to a sprite by it. *)
Record Sprite := mkSprite {
  sprite_id : nat;
  material_map : Texture;
  material_opacity : float;
  position : Vector3;
  scale : Vector3
}.

(** [interface PickupData]. *)
Record PickupData := mkPickup {
  sprite : Sprite;
  itemId : string;
  quantity : Z;
  x : float;
  z : float;
  baseY : float;
  bobOffset : float
}.

(** A call [this.inventory.tryAddById(p.itemId, p.quantity)] made by
    [update], with the index [i] of the marker and the boolean returned. *)
Record call := mkCall {
  call_index : nat;
  call_itemId : string;
  call_quantity : Z;
  call_ok : bool
}.

(** The tuning knobs of the class. *)
Definition pickupRadius : float := 0.75.
Definition bobSpeed : float := 2.2.
Definition bobHeight : float := 0.08.
Definition pulseSpeed : float := 3.0.
Definition pulseAmount : float := 0.10.
Definition Math_PI : float := 3.141592653589793.

(** [scene.remove(object)]: drops the object from [scene.children] if it is
    there. *)
Fixpoint scene_remove (o : nat) (children : list nat) : list nat :=
  match children with
  | [] => []
  | c :: rest => if decide (c = o) then rest else c :: scene_remove o rest
  end.

Section Manager.

(** The inventory the manager holds a reference to is an object with a state
    of some type [Inv]. *)
Context {Inv : Type}.

(** [InventoryManager.tryAddById], imported from [./inventory]; it is not in
    the sources. *)
Variable tryAddById : string → Z → Inv → bool * Inv.

(** [ITEM_DB], imported from [./inventory]; it is not in the sources. The
    lookup [ITEM_DB[id]] is the lookup of this map. *)
Variable ITEM_DB : gmap string ItemTemplate.

(** [Math.sin], and the successive values of [Math.random()]. *)
Variable Math_sin : float → float.
Variable Math_random : nat → float.

(** The fields of [ItemPickupManager], with the [children] of the scene it
    was given, the state of the inventory it was given, the texture loads it
    has started, and the numbers of objects created and of random draws. *)
Record state := mkState {
  pickups : list PickupData;
  iconTextureCache : gmap string Texture;
  animTime : float;
  scene : list nat;
  inventory : Inv;
  loads : list string;
  allocated : nat;
  randoms : nat
}.

Definition set_pickups (ps : list PickupData) (m : state) : state :=
  mkState ps (iconTextureCache m) (animTime m) (scene m) (inventory m)
          (loads m) (allocated m) (randoms m).

Definition set_scene (sc : list nat) (m : state) : state :=
  mkState (pickups m) (iconTextureCache m) (animTime m) sc (inventory m)
          (loads m) (allocated m) (randoms m).

Definition set_inventory (inv : Inv) (m : state) : state :=
  mkState (pickups m) (iconTextureCache m) (animTime m) (scene m) inv
          (loads m) (allocated m) (randoms m).

Definition set_animTime (t : float) (m : state) : state :=
  mkState (pickups m) (iconTextureCache m) t (scene m) (inventory m)
          (loads m) (allocated m) (randoms m).

(** [private getOrLoadIconTexture(tpl)]: the cached texture, or a new
    placeholder that is cached while the load of [tpl.icon] is started. (The
    loader's callbacks run later, outside the methods modelled here.) *)
Definition getOrLoadIconTexture (tpl : ItemTemplate) (m : state)
    : Texture * state :=
  match iconTextureCache m !! id tpl with
  | Some existing => (existing, m)
  | None =>
    (Placeholder,
     mkState (pickups m) (<[id tpl := Placeholder]> (iconTextureCache m))
             (animTime m) (scene m) (inventory m) (loads m ++ [icon tpl])
             (allocated m) (randoms m))
  end.

(** [spawn(spawn: ItemPickupSpawn): void]. *)
Definition spawn (sp : ItemPickupSpawn.t) (m : state) : state :=
  match ITEM_DB !! ItemPickupSpawn.itemId sp with
  | None => m
  | Some tpl =>
    let baseY := default 0.4%float (ItemPickupSpawn.y sp) in
    let '(tex, m1) := getOrLoadIconTexture tpl m in
    let sprite :=
      mkSprite (allocated m1) tex 0.95%float
               (mkVector3 (ItemPickupSpawn.x sp) baseY (ItemPickupSpawn.z sp))
               (mkVector3 0.42 0.42 0.42)%float in
    let pickup :=
      mkPickup sprite (ItemPickupSpawn.itemId sp)
               (Z.max 1 (Qfloor (ItemPickupSpawn.quantity sp)))
               (ItemPickupSpawn.x sp) (ItemPickupSpawn.z sp) baseY
               (Math_random (randoms m1) * Math_PI * 2)%float in
    mkState (pickups m1 ++ [pickup]) (iconTextureCache m1) (animTime m1)
            (scene m1 ++ [sprite_id sprite]) (inventory m1) (loads m1)
            (S (allocated m1)) (S (randoms m1))
  end.

(** [spawnMany(spawns)]: [spawns.forEach((s) => this.spawn(s))]. *)
Definition spawnMany (spawns : list ItemPickupSpawn.t) (m : state) : state :=
  foldl (fun m s => spawn s m) m spawns.

(** [getActiveCount()]. *)
Definition getActiveCount (m : state) : nat := length (pickups m).

(** [clear()]. *)
Definition clear (m : state) : state :=
  set_pickups []
    (set_scene (foldl (fun sc p => scene_remove (sprite_id (sprite p)) sc)
                      (scene m) (pickups m)) m).

(** The bob and pulse of one marker at animation time [t]: the writes to
    [p.sprite.position.y], [p.sprite.scale] and [mat.opacity]. *)
Definition animate (t : float) (p : PickupData) : PickupData :=
  let bobY := (Math_sin (t * bobSpeed + bobOffset p) * bobHeight)%float in
  let pulse := (1 + Math_sin (t * pulseSpeed + bobOffset p) * pulseAmount)%float in
  let s := sprite p in
  let s' :=
    mkSprite (sprite_id s) (material_map s)
             (0.85 + (pulse - 1) * 0.75)%float
             (mkVector3 (vx (position s)) (baseY p + bobY)%float (vz (position s)))
             (mkVector3 (0.42 * pulse) (0.42 * pulse) (0.42 * pulse))%float in
  mkPickup s' (itemId p) (quantity p) (x p) (z p) (baseY p) (bobOffset p).

(** The planar distance of the pickup check. *)
Definition distance (playerPos : Vector3) (p : PickupData) : float :=
  let dx := (vx playerPos - x p)%float in
  let dz := (vz playerPos - z p)%float in
  PrimFloat.sqrt (dx * dx + dz * dz)%float.

Definition in_radius (playerPos : Vector3) (p : PickupData) : bool :=
  (distance playerPos p <? pickupRadius)%float.

(** The loop of [update], [for (let i = this.pickups.length - 1; i >= 0; i--)],
    when [n = i + 1] iterations are left. [log] collects the calls made to
    the inventory. [None] is the TypeError of reading a field of
    [this.pickups[i]] when that is [undefined]. *)
Fixpoint update_loop (n : nat) (playerPos : Vector3) (m : state)
    (log : list call) : option (state * list call) :=
  match n with
  | O => Some (m, log)
  | S i =>
    match pickups m !! i with
    | None => None
    | Some p0 =>
      let p := animate (animTime m) p0 in
      let m1 := set_pickups (<[i := p]> (pickups m)) m in
      if in_radius playerPos p then
        let '(ok, inv) := tryAddById (itemId p) (quantity p) (inventory m1) in
        let log' := log ++ [mkCall i (itemId p) (quantity p) ok] in
        let m2 := set_inventory inv m1 in
        if ok then
          let m3 := set_scene (scene_remove (sprite_id (sprite p)) (scene m2)) m2 in
          update_loop i playerPos (set_pickups (delete i (pickups m3)) m3) log'
        else update_loop i playerPos m2 log'
      else update_loop i playerPos m1 log
    end
  end.

(** [update(dt: number, playerPos: THREE.Vector3): void]. *)
Definition update (dt : float) (playerPos : Vector3) (m : state)
    : option (state * list call) :=
  let m0 := set_animTime (animTime m + dt)%float m in
  update_loop (length (pickups m0)) playerPos m0 [].

(** *** Vocabulary of the statements *)

(** The marker of index [i] was captured: the call made for it returned
    [true]. *)
Definition captured (log : list call) (i : nat) : bool :=
  existsb (fun c => (call_index c =? i)%nat && call_ok c) log.

(** The markers that were not captured, animated, in the order of the field;
    [i] is the index of the first marker of [ps]. *)
Fixpoint survivors (t : float) (log : list call) (i : nat)
    (ps : list PickupData) : list PickupData :=
  match ps with
  | [] => []
  | p :: rest =>
    if captured log i then survivors t log (S i) rest
    else animate t p :: survivors t log (S i) rest
  end.

(** The sprites of the captured markers. *)
Fixpoint captured_sprites (log : list call) (i : nat) (ps : list PickupData)
    : list nat :=
  match ps with
  | [] => []
  | p :: rest =>
    if captured log i
    then sprite_id (sprite p) :: captured_sprites log (S i) rest
    else captured_sprites log (S i) rest
  end.

(** The calls owed to the markers in radius, from index [i] on, in the order
    of the field. *)
Fixpoint due (playerPos : Vector3) (i : nat) (ps : list PickupData)
    : list (nat * string * Z) :=
  match ps with
  | [] => []
  | p :: rest =>
    if in_radius playerPos p
    then (i, itemId p, quantity p) :: due playerPos (S i) rest
    else due playerPos (S i) rest
  end.

Definition call_key (c : call) : nat * string * Z :=
  (call_index c, call_itemId c, call_quantity c).

(** What identifies a marker for the game: item, quantity and place. *)
Definition marker (p : PickupData) : string * Z * float * float :=
  (itemId p, quantity p, x p, z p).

(** The marker a spawn entry asks for. *)
Definition requested_marker (sp : ItemPickupSpawn.t) : string * Z * float * float :=
  (ItemPickupSpawn.itemId sp, Z.max 1 (Qfloor (ItemPickupSpawn.quantity sp)),
   ItemPickupSpawn.x sp, ItemPickupSpawn.z sp).

(** The item of a spawn entry is in the catalog. *)
Definition in_catalog (sp : ItemPickupSpawn.t) : bool :=
  bool_decide (is_Some (ITEM_DB !! ItemPickupSpawn.itemId sp)).

End Manager.

(** *** A concrete field

    One key on the floor, next to the player, and a one-slot inventory that
    already holds a key; the accept call is [addItem], a call that throws
    counting as a refusal. *)

Definition demo_accept (itemId : string) (quantity : Z)
    (items : list (option Inventory.InventoryItem))
    : bool * list (option Inventory.InventoryItem) :=
  match Inventory.addItem itemId quantity items with
  | Inventory.Returned ok items' => (ok, items')
  | Inventory.TypeError items' => (false, items')
  end.

Definition demo_catalog : gmap string ItemTemplate :=
  <["key" := mkTemplate "key" "key-icon"]> ∅.

Definition demo_field : @state (list (option Inventory.InventoryItem)) :=
  Pickups.spawn demo_catalog (fun _ => 0%float)
        (ItemPickupSpawn.mk "key" 1%Q 2%float 3%float None)
        (mkState [] ∅ 0%float [] (Inventory.run [("key", 1%Z)] (Inventory.fresh 1))
                 [] 0 0).

Definition demo_player : Vector3 := mkVector3 2.5 0 3.5.

(** A second field: an empty inventory of one slot, two keys within reach of
    [demo_player] and one far away. *)
Definition demo_open_field : @state (list (option Inventory.InventoryItem)) :=
  Pickups.spawnMany demo_catalog (fun _ => 0%float)
    [ItemPickupSpawn.mk "key" 1%Q 2%float 3%float None;
     ItemPickupSpawn.mk "key" 1%Q 2.25%float 3.25%float None;
     ItemPickupSpawn.mk "key" 1%Q 50%float 50%float None]
    (mkState [] ∅ 0%float [] (Inventory.fresh 1) [] 0 0).

End Pickups.

Module PickupsMore.
Import Pickups.
Local Open Scope nat_scope.

Section Manager.

Context {Inv : Type}.
Variable tryAddById : string → Z → Inv → bool * Inv.
Variable ITEM_DB : gmap string ItemTemplate.

(** The accept calls for a list of markers (index, item id, quantity), made
    one after the other on the inventory: the calls with the booleans
    returned, and the inventory they leave. *)
Fixpoint replay (ks : list (nat * string * Z)) (inv : Inv) : list call * Inv :=
  match ks with
  | [] => ([], inv)
  | (i, item, q) :: rest =>
    let '(ok, inv1) := tryAddById item q inv in
    let '(log, inv2) := replay rest inv1 in
    (mkCall i item q ok :: log, inv2)
  end.

(** The success callback that [getOrLoadIconTexture] hands to the loader, run
    when the icon of [tpl] has loaded: the texture goes into the cache and
    into the material of every marker whose item id is [tpl.id]. *)
Definition icon_loaded (tpl : ItemTemplate) (m : @state Inv) : @state Inv :=
  let tex := Loaded (icon tpl) in
  mkState
    ((fun p =>
        if decide (itemId p = id tpl) then
          let s := sprite p in
          mkPickup (mkSprite (sprite_id s) tex (material_opacity s)
                             (position s) (scale s))
                   (itemId p) (quantity p) (x p) (z p) (baseY p) (bobOffset p)
        else p) <$> pickups m)
    (<[id tpl := tex]> (iconTextureCache m)) (animTime m) (scene m)
    (inventory m) (loads m) (allocated m) (randoms m).

(** Every marker of the field is for an item of the catalog, in a quantity
    of at least 1. *)
Definition field_ok (m : @state Inv) : Prop :=
  Forall (fun k : string * Z * float * float =>
            (1 <= k.1.1.2)%Z ∧ is_Some (ITEM_DB !! k.1.1.1))
         (marker <$> pickups m).

End Manager.

End PickupsMore.

(** *** [addItem] on the values JavaScript has

    The same method once more, with [count] and the quantities as binary64
    numbers, the fields of a stored object possibly [undefined], and the
    lookup [ITEM_DEFINITIONS[type]] going through the prototype chain. *)

Module InventoryJS.

(** A decimal literal denotes the nearest binary64 value, as in JavaScript. *)
#[local] Set Warnings "-inexact-float".

(** [ToNumber] of a property that may be [undefined]: [undefined] gives NaN. *)
Definition to_number (v : option float) : float := default nan v.

(** [Math.min] of two numbers: NaN if either is NaN, and -0 below +0. *)
Definition Math_min (a b : float) : float :=
  if PrimFloat.is_nan a || PrimFloat.is_nan b then nan
  else if (a <? b)%float then a
  else if (b <? a)%float then b
  else if PrimFloat.get_sign a then a else b.

(** An object stored in [items]. One built by [{ ...def, count }] from a
    catalog entry has every field; one built from a value that has no own
    enumerable property has [count] only, its other fields being
    [undefined]. *)
Record InventoryItem := mkItem {
  type : option string;
  count : float;
  maxStack : option float;
  icon : option string;
  name : option string;
  description : option string
}.

Record ItemDefinition := mkDef {
  def_type : string;
  def_maxStack : float;
  def_icon : string;
  def_name : string;
  def_description : string
}.

(** The own properties of the object literal [ITEM_DEFINITIONS]. *)
Definition own_definitions : gmap string ItemDefinition :=
  <["gold" := mkDef "gold" 99 "gold-icon" "Gold Coin" "Currency of the realm."]>
  (<["potion" := mkDef "potion" 5 "potion-icon" "Health Potion" "Restores 25 HP."]>
  (<["key" := mkDef "key" 1 "key-icon" "Dungeon Key" "Unlocks a door."]> ∅)).

(** The property names an object literal inherits from [Object.prototype]. *)
Definition Object_prototype_members : list string :=
  ["constructor"; "__defineGetter__"; "__defineSetter__"; "hasOwnProperty";
   "__lookupGetter__"; "__lookupSetter__"; "isPrototypeOf";
   "propertyIsEnumerable"; "toString"; "valueOf"; "__proto__";
   "toLocaleString"].

(** What [ITEM_DEFINITIONS[type]] evaluates to: a catalog entry, a member
    inherited from [Object.prototype] (a function, or the prototype itself
    for [__proto__]: an object with no [maxStack] and no own enumerable
    property), or [undefined]. *)
Inductive property :=
| Own (d : ItemDefinition)
| Inherited
| Undefined.

Definition ITEM_DEFINITIONS (ty : string) : property :=
  match own_definitions !! ty with
  | Some d => Own d
  | None =>
    if bool_decide (ty ∈ Object_prototype_members) then Inherited else Undefined
  end.

Abbreviation slot := (option InventoryItem).

Definition capacity : nat := 10.

Definition constructor : list slot := replicate capacity None.

(** [item && item.type === type && item.count < item.maxStack]. *)
Definition stackable (ty : string) (item : InventoryItem) : bool :=
  match type item with Some t => String.eqb t ty | None => false end
  && (count item <? to_number (maxStack item))%float.

(** [item.count += add]. *)
Definition add_count (item : InventoryItem) (add : float) : InventoryItem :=
  mkItem (type item) (count item + add)%float (maxStack item) (icon item)
         (name item) (description item).

(** First loop of [addItem], from index [i] on. *)
Fixpoint stack_loop (fuel i : nat) (ty : string) (items : list slot)
    (remaining : float) : list slot * float :=
  match fuel with
  | O => (items, remaining)
  | S fuel' =>
    match items !! i with
    | None => (items, remaining)
    | Some None => stack_loop fuel' (S i) ty items remaining
    | Some (Some item) =>
      if stackable ty item then
        let space := (to_number (maxStack item) - count item)%float in
        let add := Math_min space remaining in
        let items' := <[i := Some (add_count item add)]> items in
        let remaining' := (remaining - add)%float in
        if (remaining' =? 0)%float then (items', remaining')
        else stack_loop fuel' (S i) ty items' remaining'
      else stack_loop fuel' (S i) ty items remaining
    end
  end.

Inductive loop_end :=
| Done (items : list slot) (remaining : float)
| Raised (items : list slot).

(** [def.maxStack], when [def] is not [undefined]. *)
Definition maxStack_of (d : ItemDefinition + unit) : option float :=
  match d with inl d => Some (def_maxStack d) | inr _ => None end.

(** The object literal [{ ...def, count: add }]. *)
Definition spread_def (d : ItemDefinition + unit) (add : float) : InventoryItem :=
  match d with
  | inl d =>
    mkItem (Some (def_type d)) add (Some (def_maxStack d)) (Some (def_icon d))
           (Some (def_name d)) (Some (def_description d))
  | inr _ => mkItem None add None None None None
  end.

(** Second loop of [addItem], from index [i] on; reading [def.maxStack]
    throws a TypeError when [def] is [undefined]. *)
Fixpoint place_loop (fuel i : nat) (def : property) (items : list slot)
    (remaining : float) : loop_end :=
  match fuel with
  | O => Done items remaining
  | S fuel' =>
    match items !! i with
    | None => Done items remaining
    | Some (Some _) => place_loop fuel' (S i) def items remaining
    | Some None =>
      match match def with
            | Own d => Some (inl d)
            | Inherited => Some (inr ())
            | Undefined => None
            end with
      | None => Raised items
      | Some d =>
        let add := Math_min (to_number (maxStack_of d)) remaining in
        let items' := <[i := Some (spread_def d add)]> items in
        let remaining' := (remaining - add)%float in
        if (remaining' =? 0)%float then Done items' remaining'
        else place_loop fuel' (S i) def items' remaining'
      end
    end
  end.

Inductive outcome :=
| Returned (ok : bool) (items : list slot)
| TypeError (items : list slot).

Definition items_of (o : outcome) : list slot :=
  match o with Returned _ items => items | TypeError items => items end.

(** [public addItem(type: ItemType, count: number = 1): boolean], for a
    string [type] and a number [count] of any value. *)
Definition addItem (ty : string) (cnt : float) (items : list slot) : outcome :=
  let def := ITEM_DEFINITIONS ty in
  let '(items1, remaining1) := stack_loop (length items) 0 ty items cnt in
  if (0 <? remaining1)%float then
    match place_loop (length items1) 0 def items1 remaining1 with
    | Done items2 remaining2 => Returned (remaining2 =? 0)%float items2
    | Raised items2 => TypeError items2
    end
  else Returned (remaining1 =? 0)%float items1.

Fixpoint run (calls : list (string * float)) (items : list slot) : list slot :=
  match calls with
  | [] => items
  | (ty, cnt) :: rest => run rest (items_of (addItem ty cnt items))
  end.

(** [public isFull(): boolean]; [item.count >= item.maxStack] is false when
    either side is NaN. *)
Definition isFull (items : list slot) : bool :=
  forallb (fun item : slot =>
             match item with
             | Some it => (to_number (maxStack it) <=? count it)%float
             | None => false
             end) items.

Definition has_empty (slots : list slot) : bool :=
  existsb (fun s : slot => match s with None => true | Some _ => false end) slots.

(** Every occupied slot holds a catalog type, or no type at all. *)
Definition catalogued (slots : list slot) : Prop :=
  Forall (fun s : slot =>
            match s with
            | Some item =>
              match type item with
              | Some t => is_Some (own_definitions !! t)
              | None => True
              end
            | None => True
            end) slots.

(** *** The integer model inside this one *)

(** The binary64 value of an integer (exact below 2^53 in absolute value). *)
Definition number (n : Z) : float :=
  if (n <? 0)%Z then (- PrimFloat.of_uint63 (Uint63.of_Z (- n)))%float
  else PrimFloat.of_uint63 (Uint63.of_Z n).

(** An item, the slots and a result of module [Inventory], read here. *)
Definition of_item (it : Inventory.InventoryItem) : InventoryItem :=
  mkItem (Some (Inventory.type it)) (number (Inventory.count it))
         (Some (number (Inventory.maxStack it))) (Some (Inventory.icon it))
         (Some (Inventory.name it)) (Some (Inventory.description it)).

Definition of_slots (slots : list (option Inventory.InventoryItem)) : list slot :=
  (fun s : option Inventory.InventoryItem => of_item <$> s) <$> slots.

Definition of_outcome (o : Inventory.outcome) : outcome :=
  match o with
  | Inventory.Returned ok items => Returned ok (of_slots items)
  | Inventory.TypeError items => TypeError (of_slots items)
  end.

Definition of_calls (calls : list (string * Z)) : list (string * float) :=
  (fun c : string * Z => (c.1, number c.2)) <$> calls.

Definition of_def (d : Inventory.ItemDefinition) : ItemDefinition :=
  mkDef (Inventory.def_type d) (number (Inventory.def_maxStack d))
        (Inventory.def_icon d) (Inventory.def_name d)
        (Inventory.def_description d).

(** The quantities up to which the two models are compared. *)
Definition quantity_bound : Z := 1000.

(** The arithmetic of one loop step, on a space or max stack size [a] and a
    remainder [rem], gives the binary64 value of what integer arithmetic
    gives. *)
Definition step_exact (a rem : Z) : bool :=
  PrimFloat.Leibniz.eqb (Math_min (number a) (number rem)) (number (Z.min a rem))
  && PrimFloat.Leibniz.eqb (number rem - number (Z.min a rem))%float
                           (number (rem - Z.min a rem))
  && Bool.eqb (number rem =? 0)%float (rem =? 0)%Z
  && Bool.eqb (0 <? number rem)%float (0 <? rem)%Z.

(** The same for the test and the space of a slot of count [c] and max stack
    size [M], and for [item.count += k]. *)
Definition slot_exact (c M : Z) : bool :=
  Bool.eqb (number c <? number M)%float (c <? M)%Z
  && PrimFloat.Leibniz.eqb (number M - number c)%float (number (M - c)).

Definition count_exact (c k : Z) : bool :=
  PrimFloat.Leibniz.eqb (number c + number k)%float (number (c + k)).

End InventoryJS.

(* ===================================================================== *)
(** ** Part II. The inventory: lemmas and theorems *)
(* ===================================================================== *)

Module InventoryFacts.
Import Inventory.
Local Open Scope Z_scope.

(** *** The catalog *)

Lemma catalog_known ty d :
  ITEM_DEFINITIONS !! ty = Some d → def_type d = ty ∧ 1 <= def_maxStack d.
Proof.
  unfold ITEM_DEFINITIONS. intros H.
  repeat (apply lookup_insert_Some in H as [[<- <-]|[_ H]]; [by simpl|]).
  by rewrite lookup_empty in H.
Qed.

(** *** The loops of [addItem] are the two passes *)

Lemma add_count_zero item : add_count item 0 = item.
Proof. destruct item. unfold add_count. simpl. by rewrite Z.add_0_r. Qed.

Lemma top_up_zero ty slots : top_up ty 0 slots = (slots, 0).
Proof.
  induction slots as [|[item|] rest IH]; cbn [top_up]; [done| |by rewrite IH].
  destruct (stackable ty item) eqn:Hst; [|by rewrite IH].
  unfold stackable in Hst. apply andb_true_iff in Hst as [_ Hlt].
  apply Z.ltb_lt in Hlt.
  rewrite Z.min_r by lia. rewrite Z.sub_0_r, IH, add_count_zero. done.
Qed.

Lemma stack_loop_top_up ty fuel : ∀ i (items : list slot) rem,
  (length items ≤ i + fuel)%nat →
  stack_loop fuel i ty items rem =
    let '(tl, r) := top_up ty rem (drop i items) in (take i items ++ tl, r).
Proof.
  induction fuel as [|fuel IH]; intros i items rem Hlen; simpl.
  { rewrite drop_ge by lia. simpl. by rewrite take_ge by lia; rewrite app_nil_r. }
  destruct (items !! i) as [s|] eqn:Hi.
  2:{ apply lookup_ge_None in Hi. rewrite drop_ge by lia. simpl.
      by rewrite take_ge by lia; rewrite app_nil_r. }
  assert (Hlt : (i < length items)%nat) by (by eapply lookup_lt_Some).
  rewrite (drop_S _ _ _ Hi). destruct s as [item|]; simpl.
  - destruct (stackable ty item) eqn:Hst.
    + set (add := Z.min (maxStack item - count item) rem).
      destruct (rem - add =? 0) eqn:Hz.
      * apply Z.eqb_eq in Hz. rewrite Hz, top_up_zero.
        by rewrite insert_take_drop.
      * rewrite IH by (rewrite length_insert; lia).
        rewrite drop_insert_lt by lia.
        destruct (top_up ty (rem - add) (drop (S i) items)) as [tl r].
        erewrite take_S_r by (by apply list_lookup_insert_eq).
        rewrite take_insert_ge by lia. by rewrite <- app_assoc.
    + rewrite IH by lia.
      destruct (top_up ty rem (drop (S i) items)) as [tl r].
      rewrite (take_S_r _ _ _ Hi). by rewrite <- app_assoc.
  - rewrite IH by lia.
    destruct (top_up ty rem (drop (S i) items)) as [tl r].
    rewrite (take_S_r _ _ _ Hi). by rewrite <- app_assoc.
Qed.

Lemma place_loop_fill_empty d fuel : ∀ i (items : list slot) rem,
  (length items ≤ i + fuel)%nat → 0 < rem →
  place_loop fuel i (Some d) items rem =
    let '(tl, r) := fill_empty d rem (drop i items) in Done (take i items ++ tl) r.
Proof.
  induction fuel as [|fuel IH]; intros i items rem Hlen Hrem; simpl.
  { rewrite drop_ge by lia. simpl. by rewrite take_ge by lia; rewrite app_nil_r. }
  destruct (items !! i) as [s|] eqn:Hi.
  2:{ apply lookup_ge_None in Hi. rewrite drop_ge by lia. simpl.
      by rewrite take_ge by lia; rewrite app_nil_r. }
  assert (Hlt : (i < length items)%nat) by (by eapply lookup_lt_Some).
  rewrite (drop_S _ _ _ Hi). simpl.
  destruct (rem <=? 0) eqn:Hle; [apply Z.leb_le in Hle; lia|].
  destruct s as [item|].
  - rewrite IH by lia.
    destruct (fill_empty d rem (drop (S i) items)) as [tl r].
    rewrite (take_S_r _ _ _ Hi). by rewrite <- app_assoc.
  - set (add := Z.min (def_maxStack d) rem).
    destruct (rem - add =? 0) eqn:Hz.
    + apply Z.eqb_eq in Hz. rewrite Hz.
      destruct (drop (S i) items) as [|s' tl'] eqn:Hd; simpl;
        rewrite insert_take_drop by lia; by rewrite Hd.
    + apply Z.eqb_neq in Hz.
      rewrite IH by (rewrite ?length_insert; lia).
      rewrite drop_insert_lt by lia.
      destruct (fill_empty d (rem - add) (drop (S i) items)) as [tl r].
      erewrite take_S_r by (by apply list_lookup_insert_eq).
      rewrite take_insert_ge by lia. by rewrite <- app_assoc.
Qed.

Lemma fill_empty_nonpos d rem slots : rem <= 0 → fill_empty d rem slots = (slots, rem).
Proof.
  intros H. destruct slots; simpl; [done|].
  by apply Z.leb_le in H as ->.
Qed.

Lemma top_up_length ty : ∀ slots rem, length (top_up ty rem slots).1 = length slots.
Proof.
  induction slots as [|[item|] rest IH]; intros rem; simpl; [done| |].
  - destruct (stackable ty item).
    + specialize (IH (rem - Z.min (maxStack item - count item) rem)).
      destruct (top_up ty _ rest); simpl in *; by rewrite IH.
    + specialize (IH rem). destruct (top_up ty _ rest); simpl in *; by rewrite IH.
  - specialize (IH rem). destruct (top_up ty _ rest); simpl in *; by rewrite IH.
Qed.

Lemma addItem_two_pass_eq ty d cnt (items : list slot) :
  ITEM_DEFINITIONS !! ty = Some d →
  addItem ty cnt items =
    let '(slots, r) := two_pass d ty cnt items in Returned (r =? 0) slots.
Proof.
  intros Hd. unfold addItem, two_pass. rewrite Hd.
  rewrite stack_loop_top_up by lia. rewrite drop_0. simpl.
  pose proof (top_up_length ty items cnt) as Hl.
  destruct (top_up ty cnt items) as [items1 r1]. simpl in Hl.
  destruct (0 <? r1) eqn:Hr.
  - apply Z.ltb_lt in Hr. rewrite place_loop_fill_empty by lia.
    rewrite drop_0. simpl. by destruct (fill_empty d r1 items1).
  - apply Z.ltb_ge in Hr. by rewrite fill_empty_nonpos.
Qed.


(** *** Bounds on what a pass leaves over *)

Lemma top_up_remaining ty : ∀ slots rem r slots',
  top_up ty rem slots = (slots', r) → 0 <= rem → 0 <= r <= rem.
Proof.
  induction slots as [|[item|] rest IH]; intros rem r slots' H Hrem;
    cbn [top_up] in H.
  - inversion H; lia.
  - destruct (stackable ty item) eqn:Hst.
    + unfold stackable in Hst. apply andb_true_iff in Hst as [_ Hlt].
      apply Z.ltb_lt in Hlt.
      destruct (top_up ty _ rest) as [rest' r'] eqn:Hrec. inversion H; subst.
      apply IH in Hrec; lia.
    + destruct (top_up ty _ rest) as [rest' r'] eqn:Hrec. inversion H; subst.
      apply IH in Hrec; lia.
  - destruct (top_up ty _ rest) as [rest' r'] eqn:Hrec. inversion H; subst.
    apply IH in Hrec; lia.
Qed.

Lemma fill_empty_remaining d : 0 <= def_maxStack d → ∀ slots rem r slots',
  fill_empty d rem slots = (slots', r) → 0 <= rem → 0 <= r <= rem.
Proof.
  intros HM.
  induction slots as [|s rest IH]; intros rem r slots' H Hrem;
    cbn [fill_empty] in H.
  - inversion H; lia.
  - destruct (rem <=? 0) eqn:Hle; [inversion H; lia|].
    apply Z.leb_gt in Hle. destruct s as [item|].
    + destruct (fill_empty d _ rest) as [rest' r'] eqn:Hrec. inversion H; subst.
      apply IH in Hrec; lia.
    + destruct (fill_empty d _ rest) as [rest' r'] eqn:Hrec. inversion H; subst.
      apply IH in Hrec; lia.
Qed.

(** *** Accounting: what a pass adds to the units held *)

Lemma held_top_up ty ty' : ∀ slots rem r slots',
  top_up ty rem slots = (slots', r) →
  held ty' slots' = held ty' slots + (if String.eqb ty ty' then rem - r else 0).
Proof.
  induction slots as [|[item|] rest IH]; intros rem r slots' H;
    cbn [top_up] in H.
  - inversion H; subst. cbn [held]. destruct (String.eqb ty ty'); lia.
  - destruct (stackable ty item) eqn:Hst.
    + unfold stackable in Hst. apply andb_true_iff in Hst as [Hty _].
      apply String.eqb_eq in Hty.
      destruct (top_up ty _ rest) as [rest' r'] eqn:Hrec. inversion H; subst.
      apply IH in Hrec. cbn [held add_count type count]. rewrite Hrec.
      destruct (String.eqb (type item) ty'); lia.
    + destruct (top_up ty _ rest) as [rest' r'] eqn:Hrec. inversion H; subst.
      apply IH in Hrec. cbn [held]. rewrite Hrec. lia.
  - destruct (top_up ty _ rest) as [rest' r'] eqn:Hrec. inversion H; subst.
    apply IH in Hrec. cbn [held]. by rewrite Hrec.
Qed.

Lemma held_fill_empty d ty' : ∀ slots rem r slots',
  fill_empty d rem slots = (slots', r) →
  held ty' slots' =
    held ty' slots + (if String.eqb (def_type d) ty' then rem - r else 0).
Proof.
  induction slots as [|s rest IH]; intros rem r slots' H;
    cbn [fill_empty] in H.
  - inversion H; subst. cbn [held]. destruct (String.eqb _ ty'); lia.
  - destruct (rem <=? 0) eqn:Hle.
    { inversion H; subst. destruct (String.eqb _ ty'); lia. }
    destruct s as [item|].
    + destruct (fill_empty d _ rest) as [rest' r'] eqn:Hrec. inversion H; subst.
      apply IH in Hrec. cbn [held]. rewrite Hrec. lia.
    + destruct (fill_empty d _ rest) as [rest' r'] eqn:Hrec. inversion H; subst.
      apply IH in Hrec. cbn [held spread_def type count]. rewrite Hrec.
      destruct (String.eqb (def_type d) ty'); lia.
Qed.

Lemma held_two_pass ty d ty' cnt slots slots' r :
  def_type d = ty →
  two_pass d ty cnt slots = (slots', r) →
  held ty' slots' = held ty' slots + (if String.eqb ty ty' then cnt - r else 0).
Proof.
  intros Hd H. unfold two_pass in H.
  destruct (top_up ty cnt slots) as [slots1 r1] eqn:H1.
  apply (held_top_up ty ty') in H1. apply (held_fill_empty d ty') in H.
  rewrite H, H1, Hd. destruct (String.eqb ty ty'); lia.
Qed.

Lemma two_pass_remaining ty d cnt slots slots' r :
  0 <= def_maxStack d →
  two_pass d ty cnt slots = (slots', r) → 0 <= cnt → 0 <= r <= cnt.
Proof.
  intros HM H Hc. unfold two_pass in H.
  destruct (top_up ty cnt slots) as [slots1 r1] eqn:H1.
  apply top_up_remaining in H1; [|done].
  apply fill_empty_remaining in H; lia.
Qed.


(** *** Calls that find nothing to do *)

Lemma top_up_not_stackable ty rem : ∀ slots : list slot,
  Forall (fun s : slot =>
            match s with Some it => stackable ty it = false | None => True end)
         slots →
  top_up ty rem slots = (slots, rem).
Proof.
  induction slots as [|[item|] rest IH]; intros H; cbn [top_up]; [done| |];
    inversion H as [|? ? Hs Hrest]; subst.
  - by rewrite Hs, IH.
  - by rewrite IH.
Qed.

Lemma place_loop_no_empty def fuel : ∀ i (items : list slot) rem,
  has_empty (drop i items) = false →
  place_loop fuel i def items rem = Done items rem.
Proof.
  induction fuel as [|fuel IH]; intros i items rem H; cbn [place_loop]; [done|].
  destruct (items !! i) as [s|] eqn:Hi; [|done].
  rewrite (drop_S _ _ _ Hi) in H. unfold has_empty in H. cbn [existsb] in H.
  destruct s as [item|]; [|done]. by apply IH.
Qed.

Lemma place_loop_undefined fuel : ∀ i (items : list slot) rem,
  (length items ≤ i + fuel)%nat →
  has_empty (drop i items) = true →
  place_loop fuel i None items rem = Raised items.
Proof.
  induction fuel as [|fuel IH]; intros i items rem Hlen H; cbn [place_loop].
  { by rewrite drop_ge in H by lia. }
  destruct (items !! i) as [s|] eqn:Hi.
  2:{ apply lookup_ge_None in Hi. by rewrite drop_ge in H by lia. }
  rewrite (drop_S _ _ _ Hi) in H. unfold has_empty in H. cbn [existsb] in H.
  destruct s as [item|]; [|done]. apply IH; [lia|done].
Qed.

Lemma catalogued_not_stackable ty (slots : list slot) :
  ITEM_DEFINITIONS !! ty = None → catalogued slots →
  Forall (fun s : slot =>
            match s with Some it => stackable ty it = false | None => True end)
         slots.
Proof.
  intros Hty Hcat. eapply Forall_impl; [exact Hcat|]. intros [item|] H; [|done].
  unfold stackable. destruct (String.eqb (type item) ty) eqn:Heq; [|done].
  apply String.eqb_eq in Heq. rewrite Heq, Hty in H. by destruct H.
Qed.

Lemma addItem_not_stackable ty cnt (items : list slot) :
  Forall (fun s : slot =>
            match s with Some it => stackable ty it = false | None => True end)
         items →
  addItem ty cnt items =
    if 0 <? cnt then
      match place_loop (length items) 0 (ITEM_DEFINITIONS !! ty) items cnt with
      | Done items2 remaining2 => Returned (remaining2 =? 0) items2
      | Raised items2 => TypeError items2
      end
    else Returned (cnt =? 0) items.
Proof.
  intros H. unfold addItem. rewrite stack_loop_top_up by lia.
  rewrite drop_0, top_up_not_stackable by done. done.
Qed.

Lemma addItem_unknown ty cnt (items : list slot) :
  ITEM_DEFINITIONS !! ty = None → catalogued items →
  addItem ty cnt items =
    if (0 <? cnt) && has_empty items then TypeError items
    else Returned (cnt =? 0) items.
Proof.
  intros Hty Hcat.
  rewrite addItem_not_stackable by (by apply catalogued_not_stackable).
  rewrite Hty. destruct (0 <? cnt) eqn:Hc; [|done]. cbn [andb].
  destruct (has_empty items) eqn:He.
  - rewrite place_loop_undefined; [done|lia|by rewrite drop_0].
  - rewrite place_loop_no_empty by (by rewrite drop_0). done.
Qed.

Lemma isFull_no_room ty (items : list slot) :
  isFull items = true → no_room ty items.
Proof.
  unfold isFull, no_room. rewrite forallb_forall, Forall_forall.
  intros H s Hs. apply list_elem_of_In, H in Hs. destruct s as [item|]; [|done].
  unfold stackable. apply Z.leb_le in Hs.
  replace (count item <? maxStack item) with false
    by (symmetry; apply Z.ltb_ge; lia).
  by rewrite andb_false_r.
Qed.

Lemma no_room_no_empty ty (items : list slot) :
  no_room ty items → has_empty items = false.
Proof.
  induction 1 as [|s rest Hs _ IH]; [done|].
  unfold has_empty. cbn [existsb]. by destruct s.
Qed.

Lemma addItem_no_room ty cnt (items : list slot) :
  no_room ty items → addItem ty cnt items = Returned (cnt =? 0) items.
Proof.
  intros H. rewrite addItem_not_stackable.
  2:{ eapply Forall_impl; [exact H|]. by intros [item|]. }
  destruct (0 <? cnt); [|done].
  rewrite place_loop_no_empty; [done|].
  rewrite drop_0. by eapply no_room_no_empty.
Qed.


(** *** Invariants of the slots *)

Lemma top_up_Forall (P : slot → Prop) ty :
  (∀ it k, stackable ty it = true → k <= maxStack it - count it →
           P (Some it) → P (Some (add_count it k))) →
  ∀ slots rem slots' r,
    top_up ty rem slots = (slots', r) → Forall P slots → Forall P slots'.
Proof.
  intros HP. induction slots as [|[item|] rest IH]; intros rem slots' r H Hall;
    cbn [top_up] in H; inversion Hall as [|? ? Hs Hrest]; subst.
  - by inversion H.
  - destruct (stackable ty item) eqn:Hst;
      destruct (top_up ty _ rest) as [rest' r'] eqn:Hrec; inversion H; subst;
      (constructor; [|by eapply IH]); [|done].
    apply HP; [done|lia|done].
  - destruct (top_up ty _ rest) as [rest' r'] eqn:Hrec; inversion H; subst.
    constructor; [done|by eapply IH].
Qed.

Lemma fill_empty_Forall (P : slot → Prop) d :
  (∀ rem, 0 < rem → P (Some (spread_def d (Z.min (def_maxStack d) rem)))) →
  ∀ slots rem slots' r,
    fill_empty d rem slots = (slots', r) → Forall P slots → Forall P slots'.
Proof.
  intros HP. induction slots as [|s rest IH]; intros rem slots' r H Hall;
    cbn [fill_empty] in H.
  - by inversion H.
  - destruct (rem <=? 0) eqn:Hle; [by inversion H; subst|].
    apply Z.leb_gt in Hle. inversion Hall as [|? ? Hs Hrest]; subst.
    destruct s as [item|];
      destruct (fill_empty d _ rest) as [rest' r'] eqn:Hrec; inversion H; subst;
      (constructor; [|by eapply IH]); [done|by apply HP].
Qed.

Lemma slots_ok_top_up ty : ∀ slots rem slots' r,
  top_up ty rem slots = (slots', r) → 0 <= rem → slots_ok slots →
  slots_ok slots'.
Proof.
  unfold slots_ok.
  induction slots as [|[item|] rest IH]; intros rem slots' r H Hrem Hall;
    cbn [top_up] in H; inversion Hall as [|? ? Hs Hrest]; subst.
  - by inversion H.
  - destruct (stackable ty item) eqn:Hst;
      destruct (top_up ty _ rest) as [rest' r'] eqn:Hrec; inversion H; subst.
    + unfold stackable in Hst. apply andb_true_iff in Hst as [_ Hlt].
      apply Z.ltb_lt in Hlt. constructor; [|eapply IH; [done|lia|done]].
      destruct Hs as (d & Hd & HM & Hc). exists d. cbn [add_count type count maxStack].
      repeat split; [done|done|lia|lia].
    + constructor; [done|by eapply IH].
  - destruct (top_up ty _ rest) as [rest' r'] eqn:Hrec; inversion H; subst.
    constructor; [done|by eapply IH].
Qed.

Lemma slots_ok_two_pass ty d cnt slots slots' r :
  ITEM_DEFINITIONS !! ty = Some d →
  two_pass d ty cnt slots = (slots', r) → 0 <= cnt → slots_ok slots →
  slots_ok slots'.
Proof.
  intros Hd H Hc Hok. unfold two_pass in H.
  destruct (top_up ty cnt slots) as [slots1 r1] eqn:H1.
  destruct (catalog_known _ _ Hd) as [Hty HM].
  eapply (fill_empty_Forall slot_ok); [|exact H|by eapply slots_ok_top_up].
  intros rem Hrem. exists d. cbn [spread_def type count maxStack].
  rewrite Hty. repeat split; [done|lia|lia].
Qed.

Lemma slots_ok_catalogued slots : slots_ok slots → catalogued slots.
Proof.
  intros H. eapply Forall_impl; [exact H|].
  intros [item|]; [|done]. intros (d & Hd & _). by exists d.
Qed.

Lemma slots_ok_addItem ty cnt (items : list slot) :
  0 <= cnt → slots_ok items → slots_ok (items_of (addItem ty cnt items)).
Proof.
  intros Hc Hok. destruct (ITEM_DEFINITIONS !! ty) as [d|] eqn:Hd.
  - rewrite (addItem_two_pass_eq _ _ _ _ Hd).
    destruct (two_pass d ty cnt items) as [slots' r] eqn:H2. cbn [items_of].
    by eapply slots_ok_two_pass.
  - rewrite addItem_unknown by (by try apply slots_ok_catalogued).
    by destruct (_ && _).
Qed.

Lemma slots_ok_fresh cap : slots_ok (fresh cap).
Proof. unfold slots_ok, fresh. by apply Forall_replicate. Qed.

Lemma slots_ok_run calls : ∀ items : list slot,
  Forall (fun c : string * Z => 0 <= c.2) calls → slots_ok items →
  slots_ok (run calls items).
Proof.
  induction calls as [|[ty cnt] rest IH]; intros items Hc Hok; cbn [run]; [done|].
  inversion Hc; subst. apply IH; [done|]. by apply slots_ok_addItem.
Qed.

Lemma catalogued_addItem ty cnt (items : list slot) :
  catalogued items → catalogued (items_of (addItem ty cnt items)).
Proof.
  intros Hcat. destruct (ITEM_DEFINITIONS !! ty) as [d|] eqn:Hd.
  - rewrite (addItem_two_pass_eq _ _ _ _ Hd). unfold two_pass.
    destruct (top_up ty cnt items) as [slots1 r1] eqn:H1.
    destruct (fill_empty d r1 slots1) as [slots2 r2] eqn:H2. cbn [items_of].
    destruct (catalog_known _ _ Hd) as [Hty _].
    eapply fill_empty_Forall; [|exact H2|].
    + intros rem _. cbn [spread_def type]. rewrite Hty, Hd. by eexists.
    + eapply top_up_Forall; [|exact H1|exact Hcat]. by intros it k _ _.
  - rewrite addItem_unknown by done. by destruct (_ && _).
Qed.

Lemma catalogued_run calls : ∀ cap, catalogued (run calls (fresh cap)).
Proof.
  intros cap. assert (H : catalogued (fresh cap)) by (by apply Forall_replicate).
  revert H. generalize (fresh cap).
  induction calls as [|[ty cnt] rest IH]; intros items H; cbn [run]; [done|].
  apply IH. by apply catalogued_addItem.
Qed.

(** *** Accounting over a call and over a sequence of calls *)

Lemma held_addItem_le ty ty' cnt (items : list slot) :
  0 <= cnt → slots_ok items →
  held ty' (items_of (addItem ty cnt items))
    <= held ty' items + (if String.eqb ty ty' then cnt else 0).
Proof.
  intros Hc Hok. destruct (ITEM_DEFINITIONS !! ty) as [d|] eqn:Hd.
  - rewrite (addItem_two_pass_eq _ _ _ _ Hd).
    destruct (two_pass d ty cnt items) as [slots' r] eqn:H2. cbn [items_of].
    destruct (catalog_known _ _ Hd) as [Hty HM].
    rewrite (held_two_pass _ _ ty' _ _ _ _ Hty H2).
    apply two_pass_remaining in H2; [|lia|done].
    destruct (String.eqb ty ty'); lia.
  - rewrite addItem_unknown by (by try apply slots_ok_catalogued).
    destruct (_ && _); cbn [items_of]; destruct (String.eqb ty ty'); lia.
Qed.

Lemma held_run_le ty' calls : ∀ items : list slot,
  Forall (fun c : string * Z => 0 <= c.2) calls → slots_ok items →
  held ty' (run calls items) <= held ty' items + requested ty' calls.
Proof.
  induction calls as [|[ty cnt] rest IH]; intros items Hc Hok;
    cbn [run requested]; [lia|].
  inversion Hc as [|? ? Hcnt Hrest]; subst. cbn [snd] in Hcnt.
  pose proof (held_addItem_le ty ty' cnt items Hcnt Hok).
  specialize (IH _ Hrest (slots_ok_addItem ty cnt items Hcnt Hok)). lia.
Qed.

Lemma held_fresh ty cap : held ty (fresh cap) = 0.
Proof. unfold fresh. induction cap as [|cap IH]; [done|]. exact IH. Qed.

Lemma held_slots_of ty d (slots : list slot) :
  ITEM_DEFINITIONS !! ty = Some d → slots_ok slots →
  held ty slots <= slots_of ty slots * def_maxStack d.
Proof.
  intros Hd. induction 1 as [|[item|] rest Hs _ IH]; cbn [held slots_of]; [lia| |done].
  destruct (String.eqb (type item) ty) eqn:Heq; [|lia].
  apply String.eqb_eq in Heq. destruct Hs as (d' & Hd' & _ & Hc).
  rewrite Heq, Hd in Hd'. inversion Hd'; subst d'. lia.
Qed.


(** *** A pass that places nothing *)

Lemma top_up_nothing ty : ∀ slots rem slots',
  1 <= rem → top_up ty rem slots = (slots', rem) →
  Forall (fun s : slot =>
            match s with Some it => stackable ty it = false | None => True end)
         slots.
Proof.
  induction slots as [|[item|] rest IH]; intros rem slots' Hrem H;
    cbn [top_up] in H; [done| |].
  - destruct (stackable ty item) eqn:Hst;
      destruct (top_up ty _ rest) as [rest' r'] eqn:Hrec; inversion H; subst.
    + unfold stackable in Hst. apply andb_true_iff in Hst as [_ Hlt].
      apply Z.ltb_lt in Hlt. apply top_up_remaining in Hrec; lia.
    + constructor; [done|by eapply IH].
  - destruct (top_up ty _ rest) as [rest' r'] eqn:Hrec; inversion H; subst.
    constructor; [done|by eapply IH].
Qed.

Lemma fill_empty_nothing d : 1 <= def_maxStack d → ∀ slots rem slots',
  1 <= rem → fill_empty d rem slots = (slots', rem) → has_empty slots = false.
Proof.
  intros HM. induction slots as [|s rest IH]; intros rem slots' Hrem H;
    cbn [fill_empty] in H; [done|].
  destruct (rem <=? 0) eqn:Hle; [apply Z.leb_le in Hle; lia|].
  unfold has_empty. cbn [existsb].
  destruct s as [item|];
    destruct (fill_empty d _ rest) as [rest' r'] eqn:Hrec; inversion H; subst.
  - by eapply IH.
  - apply fill_empty_remaining in Hrec; lia.
Qed.

Lemma no_room_intro ty (slots : list slot) :
  Forall (fun s : slot =>
            match s with Some it => stackable ty it = false | None => True end)
         slots →
  has_empty slots = false → no_room ty slots.
Proof.
  induction 1 as [|s rest Hs _ IH]; intros He; [constructor|].
  unfold has_empty in He. cbn [existsb] in He.
  destruct s as [item|]; [|done]. constructor; [done|by apply IH].
Qed.

(** *** A single type filling the whole inventory *)

Lemma stack_of_addItem ty d cnt (items : list slot) :
  ITEM_DEFINITIONS !! ty = Some d →
  Forall (stack_of ty (def_maxStack d)) items →
  Forall (stack_of ty (def_maxStack d)) (items_of (addItem ty cnt items)).
Proof.
  intros Hd Hall. rewrite (addItem_two_pass_eq _ _ _ _ Hd). unfold two_pass.
  destruct (top_up ty cnt items) as [slots1 r1] eqn:H1.
  destruct (fill_empty d r1 slots1) as [slots2 r2] eqn:H2. cbn [items_of].
  destruct (catalog_known _ _ Hd) as [Hty _].
  eapply fill_empty_Forall; [|exact H2|].
  - intros rem _. cbn [stack_of spread_def type maxStack count].
    repeat split; [done|lia].
  - eapply top_up_Forall; [|exact H1|exact Hall].
    intros it k _ Hk (? & HM & ?). cbn [stack_of add_count type maxStack count].
    repeat split; [done|done|lia].
Qed.

Lemma stack_of_full ty M : 1 <= M → ∀ slots : list slot,
  Forall (stack_of ty M) slots →
  held ty slots <= Z.of_nat (length slots) * M
  ∧ (held ty slots = Z.of_nat (length slots) * M → isFull slots = true).
Proof.
  intros HM. induction 1 as [|[item|] rest Hs _ [IHle IHfull]];
    cbn [held length isFull forallb].
  - done.
  - destruct Hs as (Hty & Hmax & Hc). apply String.eqb_eq in Hty. rewrite Hty.
    split; [lia|]. intros Heq.
    assert (count item = M ∧ held ty rest = Z.of_nat (length rest) * M)
      as [Hcm Hrest] by lia.
    apply andb_true_iff. split; [apply Z.leb_le; lia|by apply IHfull].
  - split; lia.
Qed.

Lemma run_length calls : ∀ items : list slot,
  (∀ ty cnt (its : list slot),
     length (items_of (addItem ty cnt its)) = length its) →
  length (run calls items) = length items.
Proof.
  induction calls as [|[ty cnt] rest IH]; intros items H; cbn [run]; [done|].
  by rewrite IH, H.
Qed.

Lemma stack_loop_length ty fuel : ∀ i (items : list slot) rem,
  length (stack_loop fuel i ty items rem).1 = length items.
Proof.
  induction fuel as [|fuel IH]; intros i items rem; cbn [stack_loop]; [done|].
  destruct (items !! i) as [[item|]|]; [|by rewrite IH|done].
  destruct (stackable ty item); [|by rewrite IH].
  destruct (_ =? 0); cbn [fst]; rewrite ?IH; by rewrite length_insert.
Qed.

Lemma place_loop_length def fuel : ∀ i (items : list slot) rem,
  length match place_loop fuel i def items rem with
         | Done its _ => its
         | Raised its => its
         end = length items.
Proof.
  induction fuel as [|fuel IH]; intros i items rem; cbn [place_loop]; [done|].
  destruct (items !! i) as [[item|]|]; [by rewrite IH| |done].
  destruct def as [d|]; [|done].
  destruct (_ =? 0); rewrite ?IH; by rewrite length_insert.
Qed.

Lemma addItem_length ty cnt (items : list slot) :
  length (items_of (addItem ty cnt items)) = length items.
Proof.
  unfold addItem. pose proof (stack_loop_length ty (length items) 0 items cnt) as H1.
  destruct (stack_loop _ _ _ _ _) as [items1 r1]. cbn [fst] in H1.
  destruct (0 <? r1); [|done].
  pose proof (place_loop_length (ITEM_DEFINITIONS !! ty) (length items1) 0 items1 r1) as H2.
  destruct (place_loop _ _ _ _ _); cbn [items_of]; lia.
Qed.

Lemma held_all_succeed ty calls : ∀ items : list slot,
  Forall (fun c : string * Z => c.1 = ty) calls →
  is_Some (ITEM_DEFINITIONS !! ty) →
  all_succeed calls items = true →
  held ty (run calls items) = held ty items + requested ty calls.
Proof.
  intros items Hty [d Hd]. revert items.
  induction calls as [|[ty' cnt] rest IH]; intros items Hok;
    cbn [run requested all_succeed] in *; [lia|].
  inversion Hty as [|? ? Heq Hrest]; subst. cbn [fst] in *.
  rewrite String.eqb_refl.
  destruct (catalog_known _ _ Hd) as [Hdt _].
  rewrite (addItem_two_pass_eq _ _ _ _ Hd) in *.
  destruct (two_pass d ty' cnt items) as [slots' r] eqn:H2. cbn [items_of].
  destruct (r =? 0) eqn:Hr; [|done]. apply Z.eqb_eq in Hr. subst r.
  rewrite (IH Hrest _ Hok).
  rewrite (held_two_pass _ _ ty' _ _ _ _ Hdt H2), String.eqb_refl. lia.
Qed.

(** *** The properties of the specification *)

(** C7. [isFull()] returns true if and only if every slot is occupied and
    the count of every occupied slot has reached its max stack size. *)
Theorem isFull_iff (items : list slot) :
  isFull items = true ↔
    (∀ s : slot, s ∈ items → s ≠ None)
    ∧ (∀ it, Some it ∈ items → maxStack it <= count it).
Proof.
  unfold isFull. rewrite forallb_forall. split.
  - intros H. split.
    + intros s Hs ->. apply list_elem_of_In, H in Hs. done.
    + intros it Hs. apply list_elem_of_In, H in Hs. by apply Z.leb_le.
  - intros [Hocc Hmax] s Hs. apply list_elem_of_In in Hs.
    destruct s as [it|]; [apply Z.leb_le; by apply Hmax|by apply Hocc in Hs].
Qed.

(** C10. A zero-quantity add returns true and leaves every slot unchanged,
    in every inventory state (a full one included) and for every item type. *)
Theorem addItem_zero ty (items : list slot) :
  addItem ty 0 items = Returned true items.
Proof.
  unfold addItem. rewrite stack_loop_top_up by lia.
  by rewrite drop_0, top_up_zero.
Qed.



(** A failed add leaves the slots unchanged exactly when there was no room
    for the type. *)
Lemma failed_add_unchanged ty d cnt (items items' : list slot) :
  ITEM_DEFINITIONS !! ty = Some d → 1 <= cnt →
  addItem ty cnt items = Returned false items' →
  (items' = items ↔ no_room ty items).
Proof.
  intros Hd Hc Hadd. split.
  - intros ->. rewrite (addItem_two_pass_eq _ _ _ _ Hd) in Hadd.
    destruct (catalog_known _ _ Hd) as [Hty HM].
    destruct (two_pass d ty cnt items) as [slots' r] eqn:H2.
    inversion Hadd; subst slots'.
    pose proof (held_two_pass _ _ ty _ _ _ _ Hty H2) as Hh.
    rewrite String.eqb_refl in Hh. assert (r = cnt) as -> by lia.
    unfold two_pass in H2.
    destruct (top_up ty cnt items) as [slots1 r1] eqn:H1.
    pose proof (top_up_remaining _ _ _ _ _ H1 ltac:(lia)) as Hr1.
    pose proof (fill_empty_remaining d ltac:(lia) _ _ _ _ H2 ltac:(lia)) as Hr2.
    assert (r1 = cnt) as -> by lia.
    pose proof (top_up_nothing _ _ _ _ Hc H1) as Hns.
    rewrite (top_up_not_stackable _ _ _ Hns) in H1. inversion H1; subst slots1.
    apply no_room_intro; [done|].
    exact (fill_empty_nothing d HM _ _ _ Hc H2).
  - intros Hno. rewrite (addItem_no_room _ _ _ Hno) in Hadd. by inversion Hadd.
Qed.


(** C4, as the code has it. Take an inventory of any capacity [cap] and a
    known type of max stack size [M]. After a sequence of successful adds of
    that type, of [cap * M] units in all, on the new inventory, [isFull()]
    returns true, and an add of any type and any quantity other than 0
    returns false and leaves every slot unchanged. *)
Theorem full_inventory_rejects cap ty d calls :
  ITEM_DEFINITIONS !! ty = Some d →
  Forall (fun c : string * Z => c.1 = ty) calls →
  all_succeed calls (fresh cap) = true →
  requested ty calls = Z.of_nat cap * def_maxStack d →
  isFull (run calls (fresh cap)) = true
  ∧ ∀ ty' cnt, cnt ≠ 0 →
      addItem ty' cnt (run calls (fresh cap)) =
        Returned false (run calls (fresh cap)).
Proof.
  intros Hd Hty Hok Hreq.
  destruct (catalog_known _ _ Hd) as [_ HM].
  assert (Hfull : isFull (run calls (fresh cap)) = true).
  { assert (Hinv : Forall (stack_of ty (def_maxStack d)) (run calls (fresh cap))).
    { assert (H0 : Forall (stack_of ty (def_maxStack d)) (fresh cap))
        by (by apply Forall_replicate).
      revert H0 Hty. generalize (fresh cap). clear Hok Hreq.
      induction calls as [|[ty' cnt] rest IH]; intros items H0 Hty;
        cbn [run]; [done|].
      inversion Hty as [|? ? Heq Hrest]; subst. cbn [fst] in *.
      apply IH; [|done]. by apply stack_of_addItem. }
    apply (stack_of_full ty (def_maxStack d) HM _ Hinv).
    rewrite (held_all_succeed ty calls _ Hty) by (by try eexists).
    rewrite held_fresh, run_length by apply addItem_length.
    unfold fresh. rewrite length_replicate. lia. }
  split; [done|]. intros ty' cnt Hcnt.
  rewrite (addItem_no_room ty' cnt _ (isFull_no_room ty' _ Hfull)).
  by apply Z.eqb_neq in Hcnt as ->.
Qed.

Lemma full_inventory_rejects_witness :
  isFull (run [("potion", 3); ("potion", 7)] (fresh 2)) = true
  ∧ ∀ ty' cnt, cnt ≠ 0 →
      addItem ty' cnt (run [("potion", 3); ("potion", 7)] (fresh 2)) =
        Returned false (run [("potion", 3); ("potion", 7)] (fresh 2)).
Proof.
  apply (full_inventory_rejects 2 "potion"
           (mkDef "potion" 5 "potion-icon" "Health Potion" "Restores 25 HP.")
           [("potion", 3); ("potion", 7)]).
  - reflexivity.
  - repeat constructor.
  - vm_compute. reflexivity.
  - vm_compute. reflexivity.
Defined.

(** C4 fails as stated: after ten keys fill the ten slots, [isFull()] is true
    and [addItem('key', 0)] returns true. *)
Lemma zero_add_on_full_inventory_returns_true :
  all_succeed [("key", 10)] constructor = true
  ∧ requested "key" [("key", 10)] = Z.of_nat capacity * 1
  ∧ isFull (run [("key", 10)] constructor) = true
  ∧ addItem "key" 0 (run [("key", 10)] constructor)
      = Returned true (run [("key", 10)] constructor).
Proof. repeat split; by vm_compute. Qed.

(** C5, as the code has it. The bounds [1 <= count <= maxStack] of every
    occupied slot (an empty slot is [None] and carries no count) are preserved
    by every add of a known type and an integer quantity of at least 1, and
    hold after every sequence of such adds on a new inventory. *)
Theorem slot_bounds_invariant :
  (∀ ty cnt (items : list slot),
     is_Some (ITEM_DEFINITIONS !! ty) → 1 <= cnt → slots_ok items →
     slots_ok (items_of (addItem ty cnt items)))
  ∧ (∀ cap calls,
       Forall (fun c : string * Z =>
                 is_Some (ITEM_DEFINITIONS !! c.1) ∧ 1 <= c.2) calls →
       ∀ n, slots_ok (run (take n calls) (fresh cap))).
Proof.
  split.
  - intros ty cnt items _ Hc Hok. apply slots_ok_addItem; [lia|done].
  - intros cap calls Hcalls n. apply slots_ok_run; [|apply slots_ok_fresh].
    apply Forall_take. eapply Forall_impl; [exact Hcalls|].
    intros c [_ Hc]. lia.
Qed.

Lemma slot_bounds_invariant_witness :
  slots_ok (run (take 2 [("potion", 4); ("gold", 120); ("key", 1)]) constructor).
Proof.
  apply (proj2 slot_bounds_invariant capacity
           [("potion", 4); ("gold", 120); ("key", 1)]).
  repeat constructor; by (eexists; reflexivity) || (cbn; lia).
Defined.

(** C6, as the code has it. After every sequence of adds of catalog types
    and of integer quantities that are not negative, on a new inventory, and
    for every item type: the units held of the type are at most the number
    of slots holding it times its max stack size, and at most the total
    quantity requested for it so far. *)
Theorem held_bounds cap calls ty :
  Forall (fun c : string * Z =>
            is_Some (ITEM_DEFINITIONS !! c.1) ∧ 0 <= c.2) calls →
  (∀ d, ITEM_DEFINITIONS !! ty = Some d →
        held ty (run calls (fresh cap))
          <= slots_of ty (run calls (fresh cap)) * def_maxStack d)
  ∧ held ty (run calls (fresh cap)) <= requested ty calls.
Proof.
  intros Hcalls.
  assert (Hnn : Forall (fun c : string * Z => 0 <= c.2) calls).
  { eapply Forall_impl; [exact Hcalls|]. by intros c [_ Hc]. }
  pose proof (slots_ok_run calls _ Hnn (slots_ok_fresh cap)) as Hok.
  split.
  - intros d Hd. by apply held_slots_of.
  - pose proof (held_run_le ty calls _ Hnn (slots_ok_fresh cap)) as H.
    rewrite held_fresh in H. lia.
Qed.

Lemma held_bounds_witness :
  (∀ d, ITEM_DEFINITIONS !! "key" = Some d →
        held "key" (run [("key", 7); ("potion", 12); ("key", 9)] constructor)
          <= slots_of "key" (run [("key", 7); ("potion", 12); ("key", 9)] constructor)
             * def_maxStack d)
  ∧ held "key" (run [("key", 7); ("potion", 12); ("key", 9)] constructor)
      <= requested "key" [("key", 7); ("potion", 12); ("key", 9)].
Proof.
  apply (held_bounds capacity [("key", 7); ("potion", 12); ("key", 9)] "key").
  repeat constructor; cbn; by (eexists; reflexivity) || lia.
Defined.

(** C6 fails as stated: after [addItem('potion', -5)] on a new inventory no
    potion is held, which is more than the -5 requested. *)
Lemma negative_request_is_exceeded :
  addItem "potion" (-5) constructor = Returned false constructor
  ∧ held "potion" (run [("potion", -5)] constructor) = 0
  ∧ requested "potion" [("potion", -5)] = -5
  ∧ ¬ held "potion" (run [("potion", -5)] constructor)
      <= requested "potion" [("potion", -5)].
Proof. repeat split; [by vm_compute..|]. vm_compute. intros H. by apply H. Qed.

End InventoryFacts.

(** *** The same method on any number and any property name *)

Module InventoryJSFacts.
Import InventoryJS.

#[local] Set Warnings "-inexact-float".

Lemma own_definitions_key ty d :
  own_definitions !! ty = Some d → def_type d = ty.
Proof.
  unfold own_definitions. intros H.
  repeat (apply lookup_insert_Some in H as [[<- <-]|[_ H]]; [done|]).
  by rewrite lookup_empty in H.
Qed.

Lemma stack_loop_nothing_stackable ty fuel : ∀ i (items : list slot) rem,
  Forall (fun s : slot =>
            match s with Some it => stackable ty it = false | None => True end)
         items →
  stack_loop fuel i ty items rem = (items, rem).
Proof.
  induction fuel as [|fuel IH]; intros i items rem Hall; cbn [stack_loop]; [done|].
  destruct (items !! i) as [[item|]|] eqn:Hi; [|by apply IH|done].
  apply (Forall_lookup_1 _ _ _ _ Hall) in Hi. rewrite Hi. by apply IH.
Qed.

Lemma stack_loop_preserves (P : slot → Prop) ty :
  (∀ it k, P (Some it) → P (Some (add_count it k))) →
  ∀ fuel i (items : list slot) rem,
    Forall P items → Forall P (stack_loop fuel i ty items rem).1.
Proof.
  intros HP. induction fuel as [|fuel IH]; intros i items rem Hall;
    cbn [stack_loop]; [done|].
  destruct (items !! i) as [[item|]|] eqn:Hi; [|by apply IH|done].
  destruct (stackable ty item); [|by apply IH].
  assert (Hins : Forall P (<[i := Some (add_count item
                   (Math_min (to_number (maxStack item) - count item) rem))]> items)).
  { apply Forall_insert; [done|]. apply HP.
    by apply (Forall_lookup_1 _ _ _ _ Hall) in Hi. }
  destruct (_ =? 0)%float; [done|by apply IH].
Qed.

Lemma place_loop_nothing_empty def fuel : ∀ i (items : list slot) rem,
  has_empty (drop i items) = false →
  place_loop fuel i def items rem = Done items rem.
Proof.
  induction fuel as [|fuel IH]; intros i items rem H; cbn [place_loop]; [done|].
  destruct (items !! i) as [s|] eqn:Hi; [|done].
  rewrite (drop_S _ _ _ Hi) in H. unfold has_empty in H. cbn [existsb] in H.
  destruct s as [item|]; [|done]. by apply IH.
Qed.

Lemma place_loop_raises fuel : ∀ i (items : list slot) rem,
  length items ≤ i + fuel →
  has_empty (drop i items) = true →
  place_loop fuel i Undefined items rem = Raised items.
Proof.
  induction fuel as [|fuel IH]; intros i items rem Hlen H; cbn [place_loop].
  { by rewrite drop_ge in H by lia. }
  destruct (items !! i) as [s|] eqn:Hi.
  2:{ apply lookup_ge_None in Hi. by rewrite drop_ge in H by lia. }
  rewrite (drop_S _ _ _ Hi) in H. unfold has_empty in H. cbn [existsb] in H.
  destruct s as [item|]; [|done]. apply IH; [lia|done].
Qed.

Lemma place_loop_defined def fuel : ∀ i (items : list slot) rem,
  def ≠ Undefined → ∃ items' rem', place_loop fuel i def items rem = Done items' rem'.
Proof.
  induction fuel as [|fuel IH]; intros i items rem Hdef; cbn [place_loop];
    [by eexists _, _|].
  destruct (items !! i) as [[item|]|]; [by apply IH| |by eexists _, _].
  destruct def as [d| |]; [| |done];
    (destruct (_ =? 0)%float; [by eexists _, _|by apply IH]).
Qed.

Lemma place_loop_preserves (P : slot → Prop) def :
  (∀ d k, def = Own d → P (Some (spread_def (inl d) k))) →
  (∀ k, def = Inherited → P (Some (spread_def (inr ()) k))) →
  ∀ fuel i (items : list slot) rem,
    Forall P items →
    Forall P match place_loop fuel i def items rem with
             | Done its _ => its
             | Raised its => its
             end.
Proof.
  intros Hown Hinh. induction fuel as [|fuel IH]; intros i items rem Hall;
    cbn [place_loop]; [done|].
  destruct (items !! i) as [[item|]|] eqn:Hi; [by apply IH| |done].
  destruct def as [d| |]; [| |done].
  - assert (Hins : Forall P (<[i := Some (spread_def (inl d)
                     (Math_min (to_number (maxStack_of (inl d))) rem))]> items))
      by (apply Forall_insert; [done|by apply Hown]).
    destruct (_ =? 0)%float; [done|by apply IH].
  - assert (Hins : Forall P (<[i := Some (spread_def (inr ())
                     (Math_min (to_number (maxStack_of (inr ()))) rem))]> items))
      by (apply Forall_insert; [done|by apply Hinh]).
    destruct (_ =? 0)%float; [done|by apply IH].
Qed.

Lemma addItem_keeps_catalogued ty cnt (items : list slot) :
  catalogued items → catalogued (items_of (addItem ty cnt items)).
Proof.
  intros Hcat. unfold addItem.
  assert (H1 : catalogued (stack_loop (length items) 0 ty items cnt).1)
    by (apply stack_loop_preserves; [by intros it k H|done]).
  destruct (stack_loop _ _ _ _ _) as [items1 r1]. cbn [fst] in H1.
  destruct (0 <? r1)%float; [|done].
  assert (H2 : catalogued match place_loop (length items1) 0 (ITEM_DEFINITIONS ty)
                                  items1 r1 with
                          | Done its _ => its
                          | Raised its => its
                          end).
  { apply place_loop_preserves; [| |done].
    - intros d k Hd. cbn. unfold ITEM_DEFINITIONS in Hd.
      destruct (own_definitions !! ty) as [d'|] eqn:Hown.
      + inversion Hd; subst d'. rewrite (own_definitions_key _ _ Hown). by eexists.
      + by destruct (bool_decide _).
    - by intros k _. }
  by destruct (place_loop _ _ _ _ _).
Qed.

Lemma run_catalogued calls : catalogued (run calls constructor).
Proof.
  assert (H : catalogued constructor) by (by apply Forall_replicate).
  revert H. generalize constructor.
  induction calls as [|[ty cnt] rest IH]; intros items H; cbn [run]; [done|].
  apply IH. by apply addItem_keeps_catalogued.
Qed.

Lemma undefined_not_stackable ty (items : list slot) :
  ITEM_DEFINITIONS ty = Undefined → catalogued items →
  Forall (fun s : slot =>
            match s with Some it => stackable ty it = false | None => True end)
         items.
Proof.
  intros Hty Hcat. eapply Forall_impl; [exact Hcat|]. intros [item|] H; [|done].
  unfold stackable. destruct (type item) as [t|]; [|done].
  destruct (String.eqb t ty) eqn:Heq; [|done].
  apply String.eqb_eq in Heq. subst t. unfold ITEM_DEFINITIONS in Hty.
  destruct H as [d Hd]. by rewrite Hd in Hty.
Qed.


(** C3, as the code has it. [addItem] throws only when the lookup
    [ITEM_DEFINITIONS[type]] is [undefined]: for an identifier of the catalog
    (the only ones the parameter type [ItemType] admits), and for the name of
    a member the catalog object inherits, it returns. Called with an
    identifier for which the lookup is [undefined], on slots that hold
    catalog items only, it never changes a slot; it throws a TypeError when
    the quantity is positive and some slot is empty, and otherwise returns:
    true for the quantity 0 and false for any other. The slots hold catalog
    items only (or items of no type) after any calls on a new inventory. *)
Theorem addItem_outside_catalog :
  (∀ ty cnt (items : list slot),
     ITEM_DEFINITIONS ty ≠ Undefined →
     ∃ ok items', addItem ty cnt items = Returned ok items')
  ∧ (∀ ty cnt (items : list slot),
       ITEM_DEFINITIONS ty = Undefined → catalogued items →
       items_of (addItem ty cnt items) = items
       ∧ addItem ty cnt items =
           if (0 <? cnt)%float && has_empty items then TypeError items
           else Returned (cnt =? 0)%float items)
  ∧ (∀ calls, catalogued (run calls constructor)).
Proof.
  split; [|split].
  - intros ty cnt items Hd. unfold addItem.
    destruct (stack_loop _ _ _ _ _) as [items1 r1].
    destruct (0 <? r1)%float; [|by eexists _, _].
    destruct (place_loop_defined (ITEM_DEFINITIONS ty) (length items1) 0 items1 r1)
      as (items2 & r2 & ->); [done|by eexists _, _].
  - intros ty cnt items Hty Hcat.
    assert (Hadd : addItem ty cnt items =
                     if (0 <? cnt)%float && has_empty items then TypeError items
                     else Returned (cnt =? 0)%float items).
    { unfold addItem.
      rewrite stack_loop_nothing_stackable by (by apply undefined_not_stackable).
      rewrite Hty. destruct (0 <? cnt)%float; [|done]. cbn [andb].
      destruct (has_empty items) eqn:He.
      - rewrite place_loop_raises; [done|lia|by rewrite drop_0].
      - rewrite place_loop_nothing_empty by (by rewrite drop_0). done. }
    split; [|done]. rewrite Hadd. by destruct (_ && _).
  - apply run_catalogued.
Qed.

Lemma addItem_outside_catalog_witness :
  (∃ ok items', addItem "potion" 5.5 constructor = Returned ok items')
  ∧ addItem "axe_basic" 2 (run [("key", 3%float)] constructor)
    = TypeError (run [("key", 3%float)] constructor).
Proof.
  split.
  - apply (proj1 addItem_outside_catalog "potion"). discriminate.
  - destruct (proj1 (proj2 addItem_outside_catalog) "axe_basic" 2%float
                (run [("key", 3%float)] constructor)) as [_ H].
    + reflexivity.
    + apply (proj2 (proj2 addItem_outside_catalog)).
    + exact H.
Defined.

(** C3 fails as stated. [ItemType] is erased when the program runs, and any
    string can reach [addItem]. On a new inventory, [addItem] with an
    identifier that names nothing throws; with the name of a member that the
    catalog object inherits, it does not throw but writes an item of count NaN
    into every empty slot. *)
Lemma addItem_outside_catalog_throws_or_writes :
  own_definitions !! "axe_basic" = None
  ∧ addItem "axe_basic" 1 constructor = TypeError constructor
  ∧ own_definitions !! "toString" = None
  ∧ addItem "toString" 1 constructor =
      Returned false (replicate 10 (Some (mkItem None nan None None None None))).
Proof. repeat split; by vm_compute. Qed.

(** C5 fails as stated: the quantity 5.5 is at least 1, and on a new
    inventory [addItem('potion', 5.5)] returns true and leaves 0.5 potion in
    the second slot. *)
Lemma fractional_quantity_breaks_bounds :
  (1 <=? 5.5)%float = true
  ∧ addItem "potion" 5.5 constructor =
      Returned true
        (Some (mkItem (Some "potion") 5 (Some 5%float) (Some "potion-icon")
                      (Some "Health Potion") (Some "Restores 25 HP."))
         :: Some (mkItem (Some "potion") 0.5 (Some 5%float) (Some "potion-icon")
                         (Some "Health Potion") (Some "Restores 25 HP."))
         :: replicate 8 None)
  ∧ (0.5 <? 1)%float = true.
Proof. repeat split; by vm_compute. Qed.

(** *** Where the integer model stops *)

(** A count that is not an integer: after [addItem('potion', 49.5)] on a new
    inventory the last slot holds 4.5 potions, [isFull()] is false, and one
    more unit of any type is refused. *)
Lemma fractional_stack_refuses_a_unit :
  isFull (items_of (addItem "potion" 49.5 constructor)) = false
  ∧ Forall (fun ty =>
              ∃ items', addItem ty 1 (items_of (addItem "potion" 49.5 constructor))
                        = Returned false items')
           ["gold"; "potion"; "key"].
Proof.
  split; [by vm_compute|].
  repeat constructor; eexists; by vm_compute.
Qed.

(** A quantity beyond 2^53: taking 1e17 potions off a stack of 3 leaves
    -1e17, the 3 being lost to rounding. *)
Lemma large_negative_quantity_rounds :
  addItem "potion" (-1e17) (of_slots [Some (Inventory.potion 3)])
  = Returned true
      [Some (mkItem (Some "potion") (-1e17) (Some 5%float) (Some "potion-icon")
                    (Some "Health Potion") (Some "Restores 25 HP."))].
Proof. by vm_compute. Qed.

End InventoryJSFacts.

(** *** The integer model is the method on integers *)

Module InventoryRefinement.
Import InventoryJS.
Local Open Scope Z_scope.

#[local] Set Warnings "-inexact-float".

(** *** Binary64 arithmetic on the integers of the loops, by enumeration *)

Lemma grid_all (f : Z → Z → bool) lo1 n1 lo2 n2 :
  forallb (fun a => forallb (f a) (seqZ lo2 n2)) (seqZ lo1 n1) = true →
  ∀ a b, lo1 <= a < lo1 + n1 → lo2 <= b < lo2 + n2 → f a b = true.
Proof.
  intros H a b Ha Hb.
  rewrite forallb_forall in H.
  assert (Hin : forallb (f a) (seqZ lo2 n2) = true).
  { apply H. apply list_elem_of_In, elem_of_seqZ. lia. }
  rewrite forallb_forall in Hin. apply Hin.
  apply list_elem_of_In, elem_of_seqZ. lia.
Qed.

Lemma step_exact_grid a rem :
  1 <= a <= 99 → - quantity_bound <= rem <= quantity_bound →
  step_exact a rem = true.
Proof.
  intros Ha Hr. unfold quantity_bound in Hr.
  apply (grid_all step_exact 1 99 (-1000) 2001); [by vm_compute|lia|lia].
Qed.

Lemma slot_exact_grid c M : 1 <= c <= 99 → 1 <= M <= 99 → slot_exact c M = true.
Proof.
  intros Hc HM.
  apply (grid_all slot_exact 1 99 1 99); [by vm_compute|lia|lia].
Qed.

Lemma count_exact_grid c k :
  1 <= c <= 99 → - quantity_bound <= k <= 99 → count_exact c k = true.
Proof.
  intros Hc Hk. unfold quantity_bound in Hk.
  apply (grid_all count_exact 1 99 (-1000) 1100); [by vm_compute|lia|lia].
Qed.

(** *** The loops, step by step *)

Lemma step_facts a rem :
  1 <= a <= 99 → - quantity_bound <= rem <= quantity_bound →
  Math_min (number a) (number rem) = number (Z.min a rem)
  ∧ (number rem - number (Z.min a rem))%float = number (rem - Z.min a rem)
  ∧ (number rem =? 0)%float = (rem =? 0)
  ∧ (0 <? number rem)%float = (0 <? rem).
Proof.
  intros Ha Hr. pose proof (step_exact_grid a rem Ha Hr) as H.
  unfold step_exact in H.
  apply andb_true_iff in H as [H H4]. apply andb_true_iff in H as [H H3].
  apply andb_true_iff in H as [H1 H2].
  apply FloatAxioms.Leibniz.eqb_spec in H1, H2.
  apply Bool.eqb_prop in H3, H4. done.
Qed.

Lemma slot_facts c M :
  1 <= c <= 99 → 1 <= M <= 99 →
  (number c <? number M)%float = (c <? M)
  ∧ (number M - number c)%float = number (M - c).
Proof.
  intros Hc HM. pose proof (slot_exact_grid c M Hc HM) as H.
  unfold slot_exact in H. apply andb_true_iff in H as [H1 H2].
  apply FloatAxioms.Leibniz.eqb_spec in H2. apply Bool.eqb_prop in H1. done.
Qed.

Lemma count_facts c k :
  1 <= c <= 99 → - quantity_bound <= k <= 99 →
  (number c + number k)%float = number (c + k).
Proof.
  intros Hc Hk. by apply FloatAxioms.Leibniz.eqb_spec, count_exact_grid.
Qed.

Lemma catalog_refines ty d :
  Inventory.ITEM_DEFINITIONS !! ty = Some d →
  ITEM_DEFINITIONS ty = Own (of_def d) ∧ 1 <= Inventory.def_maxStack d <= 99.
Proof.
  unfold Inventory.ITEM_DEFINITIONS. intros H.
  repeat (apply lookup_insert_Some in H as [[<- <-]|[_ H]];
          [split; [reflexivity|cbn; lia]|]).
  by rewrite lookup_empty in H.
Qed.

Lemma of_slots_lookup (items : list (option Inventory.InventoryItem)) i :
  of_slots items !! i = (fun s : option Inventory.InventoryItem => of_item <$> s) <$> (items !! i).
Proof. unfold of_slots. apply list_lookup_fmap. Qed.

Lemma of_slots_insert (items : list (option Inventory.InventoryItem)) i it :
  <[i := Some (of_item it)]> (of_slots items) = of_slots (<[i := Some it]> items).
Proof. unfold of_slots. by rewrite list_fmap_insert. Qed.

Lemma stack_loop_refines ty fuel : ∀ i (items : list (option Inventory.InventoryItem)) rem,
  Inventory.slots_ok items → - quantity_bound <= rem <= quantity_bound →
  stack_loop fuel i ty (of_slots items) (number rem)
    = (of_slots (Inventory.stack_loop fuel i ty items rem).1,
       number (Inventory.stack_loop fuel i ty items rem).2)
  ∧ - quantity_bound <= (Inventory.stack_loop fuel i ty items rem).2 <= quantity_bound.
Proof.
  induction fuel as [|fuel IH]; intros i items rem Hok Hrem;
    cbn [stack_loop Inventory.stack_loop]; [done|].
  rewrite of_slots_lookup.
  destruct (items !! i) as [[item|]|] eqn:Hi; cbn [fmap option_fmap option_map];
    [|by apply IH|done].
  pose proof (Forall_lookup_1 _ _ _ _ Hok Hi) as (d & Hd & HM & Hc).
  destruct (catalog_refines _ _ Hd) as [_ Hd99].
  cbn [Inventory.slot_ok] in *.
  assert (Hst : stackable ty (of_item item) = Inventory.stackable ty item).
  { unfold stackable, Inventory.stackable, of_item.
    cbn [type count maxStack]. unfold to_number, default. cbn [from_option]. unfold id.
    by rewrite (proj1 (slot_facts (Inventory.count item) (Inventory.maxStack item)
                         ltac:(lia) ltac:(lia))). }
  rewrite Hst. destruct (Inventory.stackable ty item) eqn:Hs; [|by apply IH].
  unfold Inventory.stackable in Hs. apply andb_true_iff in Hs as [_ Hlt].
  apply Z.ltb_lt in Hlt. cbv zeta.
  set (c := Inventory.count item) in *. set (M := Inventory.maxStack item) in *.
  set (add := Z.min (M - c) rem).
  assert (Hadd : add = rem ∧ rem <= M - c ∨ add = M - c ∧ M - c < rem)
    by (unfold add; lia).
  replace (to_number (maxStack (of_item item)) - count (of_item item))%float
    with (number (M - c))
    by (symmetry; exact (proj2 (slot_facts c M ltac:(lia) ltac:(lia)))).
  destruct (step_facts (M - c) rem ltac:(lia) Hrem) as (Hmin & Hsub & _ & _).
  fold add in Hmin, Hsub. rewrite Hmin, Hsub.
  replace (add_count (of_item item) (number add))
    with (of_item (Inventory.add_count item add)).
  2:{ unfold add_count, Inventory.add_count, of_item.
      cbn [type count maxStack icon name description
           Inventory.type Inventory.count Inventory.maxStack Inventory.icon
           Inventory.name Inventory.description].
      fold c. by rewrite (count_facts c add ltac:(lia) ltac:(unfold quantity_bound in *; lia)). }
  rewrite of_slots_insert.
  assert (Hrem' : 0 <= rem - add <= quantity_bound) by (unfold quantity_bound in *; lia).
  destruct (step_facts 1 (rem - add) ltac:(lia) ltac:(unfold quantity_bound in *; lia))
    as (_ & _ & Hz & _).
  rewrite Hz. destruct (rem - add =? 0) eqn:Hz0.
  - cbn [fst snd]. split; [done|unfold quantity_bound in *; lia].
  - apply Z.eqb_neq in Hz0. apply IH; [|unfold quantity_bound in *; lia].
    apply Forall_insert; [done|]. exists d.
    cbn [Inventory.add_count Inventory.type Inventory.maxStack Inventory.count].
    fold c M. split; [done|]. split; [done|]. lia.
Qed.

Lemma place_loop_refines d fuel : ∀ i (items : list (option Inventory.InventoryItem)) rem,
  1 <= Inventory.def_maxStack d <= 99 →
  - quantity_bound <= rem <= quantity_bound →
  match Inventory.place_loop fuel i (Some d) items rem with
  | Inventory.Done its r =>
    place_loop fuel i (Own (of_def d)) (of_slots items) (number rem)
      = Done (of_slots its) (number r)
    ∧ - quantity_bound <= r <= quantity_bound
  | Inventory.Raised its => False
  end.
Proof.
  induction fuel as [|fuel IH]; intros i items rem HM Hrem;
    cbn [place_loop Inventory.place_loop]; [done|].
  rewrite of_slots_lookup.
  destruct (items !! i) as [[item|]|] eqn:Hi; cbn [fmap option_fmap option_map];
    [by apply IH| |done].
  cbv zeta. set (M := Inventory.def_maxStack d) in *. set (add := Z.min M rem).
  replace (to_number (maxStack_of (inl (of_def d)))) with (number M) by reflexivity.
  destruct (step_facts M rem HM Hrem) as (Hmin & Hsub & _ & _).
  fold add in Hmin, Hsub. rewrite Hmin, Hsub.
  replace (spread_def (inl (of_def d)) (number add))
    with (of_item (Inventory.spread_def d add)) by reflexivity.
  rewrite of_slots_insert.
  assert (Hrem' : 0 <= rem - add <= quantity_bound)
    by (unfold quantity_bound, add in *; lia).
  destruct (step_facts 1 (rem - add) ltac:(lia)
              ltac:(unfold quantity_bound in *; lia)) as (_ & _ & Hz & _).
  rewrite Hz. destruct (rem - add =? 0).
  - split; [done|unfold quantity_bound in *; lia].
  - apply IH; [done|unfold quantity_bound in *; lia].
Qed.

Lemma of_slots_length (items : list (option Inventory.InventoryItem)) :
  length (of_slots items) = length items.
Proof. unfold of_slots. apply length_fmap. Qed.

Lemma addItem_refines ty d cnt (items : list (option Inventory.InventoryItem)) :
  Inventory.ITEM_DEFINITIONS !! ty = Some d →
  Inventory.slots_ok items →
  - quantity_bound <= cnt <= quantity_bound →
  addItem ty (number cnt) (of_slots items)
    = of_outcome (Inventory.addItem ty cnt items).
Proof.
  intros Hd Hok Hc. unfold addItem, Inventory.addItem.
  destruct (catalog_refines _ _ Hd) as [Hown HM]. rewrite Hown, Hd.
  rewrite of_slots_length.
  destruct (stack_loop_refines ty (length items) 0 items cnt Hok Hc) as [-> Hr1].
  destruct (Inventory.stack_loop (length items) 0 ty items cnt) as [items1 r1].
  cbn [fst snd] in *.
  destruct (step_facts 1 r1 ltac:(lia) Hr1) as (_ & _ & Hz & Hpos).
  rewrite Hpos, Hz. destruct (0 <? r1); [|done].
  rewrite of_slots_length.
  pose proof (place_loop_refines d (length items1) 0 items1 r1 HM Hr1) as Hp.
  destruct (Inventory.place_loop (length items1) 0 (Some d) items1 r1)
    as [items2 r2|items2]; [|done].
  destruct Hp as [-> Hr2]. cbn [of_outcome].
  destruct (step_facts 1 r2 ltac:(lia) Hr2) as (_ & _ & Hz2 & _). by rewrite Hz2.
Qed.


Lemma of_slots_fresh n : of_slots (Inventory.fresh n) = replicate n None.
Proof. unfold of_slots, Inventory.fresh. by rewrite fmap_replicate. Qed.

Lemma run_refines calls : ∀ items : list (option Inventory.InventoryItem),
  Forall (fun c : string * Z =>
            is_Some (Inventory.ITEM_DEFINITIONS !! c.1)
            ∧ 0 <= c.2 <= quantity_bound) calls →
  Inventory.slots_ok items →
  run (of_calls calls) (of_slots items) = of_slots (Inventory.run calls items).
Proof.
  induction calls as [|[ty cnt] rest IH]; intros items Hcalls Hok;
    cbn [run of_calls fmap list_fmap Inventory.run]; [done|].
  apply Forall_cons in Hcalls as [[[d Hd] Hc] Hrest]. cbn [fst snd] in *.
  rewrite (addItem_refines ty d cnt items Hd Hok)
    by (unfold quantity_bound in *; lia).
  replace (items_of (of_outcome (Inventory.addItem ty cnt items)))
    with (of_slots (Inventory.items_of (Inventory.addItem ty cnt items)))
    by (by destruct (Inventory.addItem ty cnt items)).
  apply IH; [done|]. apply InventoryFacts.slots_ok_addItem; [lia|done].
Qed.

(** X16. On a catalog type, an integer quantity between -1000 and 1000 and
    slots that hold between 1 and the max stack size of a catalog item,
    [addItem] on binary64 numbers does what [addItem] on integers does: the
    same result, returned or thrown, and the same slots. So does every
    sequence of such calls with quantities from 0 to 1000 on a new
    inventory. *)
Theorem integer_model_is_the_code :
  (∀ ty d cnt (items : list (option Inventory.InventoryItem)),
     Inventory.ITEM_DEFINITIONS !! ty = Some d →
     Inventory.slots_ok items →
     - quantity_bound <= cnt <= quantity_bound →
     addItem ty (number cnt) (of_slots items)
       = of_outcome (Inventory.addItem ty cnt items))
  ∧ (∀ calls,
       Forall (fun c : string * Z =>
                 is_Some (Inventory.ITEM_DEFINITIONS !! c.1)
                 ∧ 0 <= c.2 <= quantity_bound) calls →
       run (of_calls calls) constructor
         = of_slots (Inventory.run calls Inventory.constructor)).
Proof.
  split; [exact addItem_refines|]. intros calls Hcalls.
  replace constructor with (of_slots Inventory.constructor)
    by apply of_slots_fresh.
  apply run_refines; [done|apply InventoryFacts.slots_ok_fresh].
Qed.

End InventoryRefinement.

(* ===================================================================== *)
(** ** Part III. The pickup field: lemmas and theorems *)
(* ===================================================================== *)

Module PickupFacts.
Import Pickups.

Local Open Scope nat_scope.

Section Manager.

Context {Inv : Type}.
Variable tryAddById : string → Z → Inv → bool * Inv.
Variable ITEM_DB : gmap string ItemTemplate.
Variable Math_sin : float → float.
Variable Math_random : nat → float.

Local Abbreviation spawn := (Pickups.spawn ITEM_DB Math_random).
Local Abbreviation spawnMany := (Pickups.spawnMany ITEM_DB Math_random).
Local Abbreviation in_catalog := (Pickups.in_catalog ITEM_DB).
Local Abbreviation animate := (Pickups.animate Math_sin).
Local Abbreviation survivors := (Pickups.survivors Math_sin).
Local Abbreviation update_loop := (Pickups.update_loop tryAddById Math_sin).
Local Abbreviation update := (Pickups.update tryAddById Math_sin).
Local Abbreviation state := (@Pickups.state Inv).

(** *** Spawning *)

Lemma spawn_known sp tpl (m : state) :
  ITEM_DB !! ItemPickupSpawn.itemId sp = Some tpl →
  ∃ p, pickups (spawn sp m) = pickups m ++ [p]
       ∧ marker p = requested_marker sp
       ∧ scene (spawn sp m) = scene m ++ [sprite_id (sprite p)].
Proof.
  intros Htpl. unfold Pickups.spawn. rewrite Htpl.
  unfold getOrLoadIconTexture.
  destruct (iconTextureCache m !! id tpl); eexists; cbn; done.
Qed.

Lemma spawn_unknown sp (m : state) :
  ITEM_DB !! ItemPickupSpawn.itemId sp = None → spawn sp m = m.
Proof. intros H. unfold Pickups.spawn. by rewrite H. Qed.

Lemma spawnMany_markers sps : ∀ m : state,
  marker <$> pickups (spawnMany sps m) =
    (marker <$> pickups m) ++ (requested_marker <$> filter in_catalog sps)
  ∧ length (scene (spawnMany sps m)) =
      length (scene m) + length (filter in_catalog sps).
Proof.
  induction sps as [|sp sps IH]; intros m; cbn [Pickups.spawnMany foldl].
  { rewrite filter_nil. cbn. rewrite app_nil_r. split; [done|lia]. }
  fold (spawnMany sps (spawn sp m)). destruct (IH (spawn sp m)) as [IH1 IH2].
  rewrite IH1, IH2. rewrite filter_cons.
  destruct (ITEM_DB !! ItemPickupSpawn.itemId sp) as [tpl|] eqn:Htpl.
  - destruct (spawn_known sp tpl m Htpl) as (p & Hp & Hm & Hs).
    rewrite Hp, Hs, fmap_app, !length_app. cbn. rewrite Hm.
    rewrite decide_True
      by (unfold Pickups.in_catalog; apply bool_decide_pack; by eexists).
    rewrite <- app_assoc. cbn. split; [done|lia].
  - rewrite (spawn_unknown sp m Htpl).
    rewrite decide_False; [done|]. unfold Pickups.in_catalog.
    intros H. apply bool_decide_unpack in H. rewrite Htpl in H. by destruct H.
Qed.


(** *** The update loop *)

Lemma in_radius_animate pos t p : in_radius pos (animate t p) = in_radius pos p.
Proof. reflexivity. Qed.

Lemma captured_cons c log i :
  captured (c :: log) i = ((call_index c =? i)%nat && call_ok c) || captured log i.
Proof. reflexivity. Qed.

Lemma captured_below n log i :
  Forall (fun c => call_index c < n) log → n ≤ i → captured log i = false.
Proof.
  induction 1 as [|c log Hc _ IH]; intros Hi; [done|].
  rewrite captured_cons, IH by done.
  replace (call_index c =? i)%nat with false; [done|].
  symmetry. apply Nat.eqb_neq. lia.
Qed.

Lemma survivors_ext t log log' : ∀ ps i,
  (∀ j, i ≤ j < i + length ps → captured log j = captured log' j) →
  survivors t log i ps = survivors t log' i ps.
Proof.
  induction ps as [|p ps IH]; intros i H; cbn [Pickups.survivors]; [done|].
  rewrite (H i) by (cbn; lia). rewrite (IH (S i)); [done|].
  intros j Hj. apply H. cbn. lia.
Qed.

Lemma captured_sprites_ext log log' : ∀ ps i,
  (∀ j, i ≤ j < i + length ps → captured log j = captured log' j) →
  captured_sprites log i ps = captured_sprites log' i ps.
Proof.
  induction ps as [|p ps IH]; intros i H; cbn [captured_sprites]; [done|].
  rewrite (H i) by (cbn; lia). rewrite (IH (S i)); [done|].
  intros j Hj. apply H. cbn. lia.
Qed.

Lemma survivors_app t log : ∀ ps1 ps2 i,
  survivors t log i (ps1 ++ ps2) =
    survivors t log i ps1 ++ survivors t log (i + length ps1) ps2.
Proof.
  induction ps1 as [|p ps1 IH]; intros ps2 i; cbn [Pickups.survivors app length].
  { by rewrite Nat.add_0_r. }
  rewrite IH. replace (S i + length ps1) with (i + S (length ps1)) by lia.
  by destruct (captured log i).
Qed.

Lemma captured_sprites_app log : ∀ ps1 ps2 i,
  captured_sprites log i (ps1 ++ ps2) =
    captured_sprites log i ps1 ++ captured_sprites log (i + length ps1) ps2.
Proof.
  induction ps1 as [|p ps1 IH]; intros ps2 i; cbn [captured_sprites app length].
  { by rewrite Nat.add_0_r. }
  rewrite IH. replace (S i + length ps1) with (i + S (length ps1)) by lia.
  by destruct (captured log i).
Qed.

Lemma due_app pos : ∀ ps1 ps2 i,
  due pos i (ps1 ++ ps2) = due pos i ps1 ++ due pos (i + length ps1) ps2.
Proof.
  induction ps1 as [|p ps1 IH]; intros ps2 i; cbn [due app length].
  { by rewrite Nat.add_0_r. }
  rewrite IH. replace (S i + length ps1) with (i + S (length ps1)) by lia.
  by destruct (in_radius pos p).
Qed.

Lemma due_lookup pos : ∀ ps i j p,
  ps !! j = Some p → in_radius pos p = true →
  (i + j, itemId p, quantity p) ∈ due pos i ps.
Proof.
  induction ps as [|q ps IH]; intros i j p Hj Hin; [done|].
  cbn [due]. destruct j as [|j]; cbn in Hj.
  - inversion Hj; subst q. rewrite Hin, Nat.add_0_r. apply elem_of_cons. by left.
  - replace (i + S j) with (S i + j) by lia.
    destruct (in_radius pos q); [apply elem_of_cons; right|]; by apply IH.
Qed.

Lemma survivors_lookup t log : ∀ ps i j p,
  ps !! j = Some p → captured log (i + j) = false →
  animate t p ∈ survivors t log i ps.
Proof.
  induction ps as [|q ps IH]; intros i j p Hj Hc; [done|].
  cbn [Pickups.survivors]. destruct j as [|j]; cbn in Hj.
  - inversion Hj; subst q. rewrite Nat.add_0_r in Hc. rewrite Hc.
    apply elem_of_cons. by left.
  - replace (i + S j) with (S i + j) in Hc by lia.
    destruct (captured log i); [|apply elem_of_cons; right]; by eapply IH.
Qed.

Lemma scene_remove_filter o (children : list nat) :
  NoDup children → scene_remove o children = filter (fun s => s ≠ o) children.
Proof.
  induction 1 as [|c rest Hc Hnd IH]; [done|]. cbn [scene_remove].
  rewrite filter_cons. destruct (decide (c = o)) as [->|Hne].
  - rewrite decide_False by (by intros H; apply H).
    clear IH. induction rest as [|r rest IH]; [done|].
    apply not_elem_of_cons in Hc as [Hr Hc]. apply NoDup_cons in Hnd as [_ Hnd].
    rewrite filter_cons, decide_True by done. f_equal. by apply IH.
  - rewrite decide_True by done. by rewrite IH.
Qed.

Lemma filter_not_in_nil (children : list nat) :
  filter (fun s => s ∉ @nil nat) children = children.
Proof.
  induction children as [|c rest IH]; [done|].
  rewrite filter_cons, decide_True by apply not_elem_of_nil. by rewrite IH.
Qed.


Lemma insert_middle {A} (l1 l2 : list A) x y :
  <[length l1 := y]> (l1 ++ x :: l2) = l1 ++ y :: l2.
Proof.
  rewrite <- (Nat.add_0_r (length l1)) at 1. by rewrite insert_app_r.
Qed.

(** The loop over the markers [front], the part of the field not yet
    visited; [back] is what the iterations before left of the rest. *)
Lemma update_loop_spec pos : ∀ front (m : state) log0 back,
  pickups m = front ++ back → NoDup (scene m) →
  ∃ m' log,
    update_loop (length front) pos m log0 = Some (m', log0 ++ log)
    ∧ Forall (fun c => call_index c < length front) log
    ∧ call_key <$> log = reverse (due pos 0 front)
    ∧ pickups m' = survivors (animTime m) log 0 front ++ back
    ∧ scene m' = filter (fun s => s ∉ captured_sprites log 0 front) (scene m)
    ∧ animTime m' = animTime m.
Proof.
  induction front as [|p0 front IH] using rev_ind; intros m log0 back Hps Hnd.
  { exists m, []. cbn [Pickups.update_loop length]. rewrite app_nil_r.
    cbn [due Pickups.survivors captured_sprites app].
    by rewrite filter_not_in_nil. }
  rewrite <- app_assoc in Hps. cbn [app] in Hps.
  rewrite length_app. cbn [length]. rewrite Nat.add_1_r.
  cbn [Pickups.update_loop]. rewrite Hps, list_lookup_middle by done.
  rewrite due_app. cbn [plus due].
  rewrite in_radius_animate, insert_middle.
  assert (Hext : ∀ c log j,
            call_index c = length front → j < length front → captured (c :: log) j = captured log j).
  { intros c log j Hc Hj. rewrite captured_cons, Hc.
    replace (length front =? j)%nat with false; [done|]. symmetry. apply Nat.eqb_neq. lia. }
  destruct (in_radius pos p0) eqn:Hin.
  - cbn [Pickups.itemId Pickups.quantity Pickups.animate Pickups.sprite
         sprite_id set_pickups inventory].
    destruct (tryAddById (itemId p0) (quantity p0) (inventory m)) as [ok inv].
    set (c := mkCall (length front) (itemId p0) (quantity p0) ok).
    destruct ok.
    + cbn [set_pickups set_scene set_inventory pickups scene].
      rewrite delete_middle.
      edestruct (IH (mkState (front ++ back) (iconTextureCache m) (animTime m)
                       (scene_remove (sprite_id (sprite p0)) (scene m)) inv
                       (loads m) (allocated m) (randoms m))
                    (log0 ++ [c]) back)
        as (m' & log & Hrun & Hidx & Hkeys & Hps' & Hsc & Ht); [done| |].
      { cbn [scene]. rewrite scene_remove_filter by done. by apply NoDup_filter. }
      cbn [scene animTime] in *.
      exists m', (c :: log). rewrite <- app_assoc in Hrun. split; [exact Hrun|].
      rewrite survivors_app, captured_sprites_app.
      cbn [plus Pickups.survivors captured_sprites].
      assert (Hci : captured (c :: log) (length front) = true).
      { rewrite captured_cons. cbn [call_index call_ok c].
        by rewrite Nat.eqb_refl. }
      rewrite Hci. repeat split.
      * constructor; [cbn; lia|]. eapply Forall_impl; [exact Hidx|]. cbn. lia.
      * rewrite fmap_cons, Hkeys, reverse_app. done.
      * rewrite Hps', app_nil_r.
        rewrite (survivors_ext _ (c :: log) log); [done|].
        intros j Hj. apply Hext; [done|]. lia.
      * rewrite Hsc, scene_remove_filter, list_filter_filter by done.
        rewrite (captured_sprites_ext (c :: log) log).
        2:{ intros j Hj. apply Hext; [done|]. lia. }
        apply list_filter_iff. intros s. rewrite not_elem_of_app.
        rewrite not_elem_of_cons. split.
        { intros [? ?]. repeat split; [done|done|apply not_elem_of_nil]. }
        { by intros (? & ? & _). }
      * done.
    + cbn [set_pickups set_inventory].
      edestruct (IH (mkState (front ++ Pickups.animate Math_sin (animTime m) p0 :: back)
                       (iconTextureCache m) (animTime m) (scene m) inv
                       (loads m) (allocated m) (randoms m))
                    (log0 ++ [c])
                    (Pickups.animate Math_sin (animTime m) p0 :: back))
        as (m' & log & Hrun & Hidx & Hkeys & Hps' & Hsc & Ht); [done|done|].
      cbn [scene animTime] in *.
      exists m', (c :: log). rewrite <- app_assoc in Hrun. split; [exact Hrun|].
      rewrite survivors_app, captured_sprites_app.
      cbn [plus Pickups.survivors captured_sprites].
      assert (Hci : captured (c :: log) (length front) = false).
      { rewrite captured_cons. cbn [call_index call_ok c].
        rewrite andb_false_r. cbn [orb]. by eapply captured_below. }
      rewrite Hci. repeat split.
      * constructor; [cbn; lia|]. eapply Forall_impl; [exact Hidx|]. cbn. lia.
      * rewrite fmap_cons, Hkeys, reverse_app. done.
      * rewrite Hps'. rewrite <- app_assoc. cbn [app].
        rewrite (survivors_ext _ (c :: log) log); [done|].
        intros j Hj. apply Hext; [done|]. lia.
      * rewrite Hsc, app_nil_r.
        rewrite (captured_sprites_ext (c :: log) log); [done|].
        intros j Hj. apply Hext; [done|]. lia.
      * done.
  - cbn [set_pickups].
    edestruct (IH (mkState (front ++ Pickups.animate Math_sin (animTime m) p0 :: back)
                     (iconTextureCache m) (animTime m) (scene m) (inventory m)
                     (loads m) (allocated m) (randoms m))
                  log0 (Pickups.animate Math_sin (animTime m) p0 :: back))
      as (m' & log & Hrun & Hidx & Hkeys & Hps' & Hsc & Ht); [done|done|].
    cbn [scene animTime] in *.
    exists m', log. split; [exact Hrun|].
    rewrite survivors_app, captured_sprites_app.
    cbn [plus Pickups.survivors captured_sprites].
    rewrite (captured_below (length front) log (length front)) by done. repeat split.
    + eapply Forall_impl; [exact Hidx|]. cbn. lia.
    + by rewrite Hkeys, app_nil_r.
    + rewrite Hps'. by rewrite <- app_assoc.
    + by rewrite Hsc, app_nil_r.
    + done.
Qed.


(** *** The properties of the specification *)

(** What one [update] leaves, in terms of the calls it made: the calls are
    for the markers in radius, the markers left are those whose call did not
    return true, the sprites taken out of the scene are those of the others,
    and a marker whose call returned false is called for again. *)
Lemma update_leaves dt pos (m : state) :
  NoDup (scene m) →
  ∃ m' log,
    update dt pos m = Some (m', log)
    ∧ call_key <$> log = reverse (due pos 0 (pickups m))
    ∧ pickups m' = survivors (animTime m + dt)%float log 0 (pickups m)
    ∧ scene m' =
        filter (fun s => s ∉ captured_sprites log 0 (pickups m)) (scene m)
    ∧ ∀ i p, pickups m !! i = Some p → in_radius pos p = true →
             captured log i = false →
        animate (animTime m + dt)%float p ∈ pickups m'
        ∧ ∀ dt' pos' m'' log'',
            update dt' pos' m' = Some (m'', log'') →
            in_radius pos' p = true →
            ∃ j ok, mkCall j (itemId p) (quantity p) ok ∈ log''.
Proof.
  intros Hnd. unfold Pickups.update.
  destruct (update_loop_spec pos (pickups m)
              (set_animTime (animTime m + dt)%float m) [] [])
    as (m' & log & Hrun & _ & Hkeys & Hps & Hsc & _).
  { cbn. by rewrite app_nil_r. }
  { done. }
  cbn [set_animTime pickups scene animTime app] in *. rewrite app_nil_r in Hps.
  exists m', log. split; [exact Hrun|]. split; [exact Hkeys|].
  split; [exact Hps|]. split; [exact Hsc|].
  intros i p Hi Hin Hcap.
  assert (Hp : animate (animTime m + dt)%float p ∈ pickups m').
  { rewrite Hps. by eapply (survivors_lookup _ _ _ 0 i). }
  split; [done|]. intros dt' pos' m'' log'' Hrun' Hin'.
  destruct (update_loop_spec pos' (pickups m')
              (set_animTime (animTime m' + dt')%float m') [] [])
    as (m2 & log2 & Hrun2 & _ & Hkeys2 & _).
  { cbn. by rewrite app_nil_r. }
  { cbn [set_animTime scene]. rewrite Hsc. by apply NoDup_filter. }
  cbn [set_animTime pickups app] in Hrun2. unfold Pickups.update in Hrun'.
  cbn [set_animTime pickups] in Hrun'. rewrite Hrun2 in Hrun'.
  inversion Hrun'; subst m'' log''.
  apply list_elem_of_lookup in Hp as [j Hj].
  pose proof (due_lookup pos' _ 0 j _ Hj Hin') as Hdue.
  apply elem_of_reverse in Hdue. rewrite <- Hkeys2 in Hdue.
  apply list_elem_of_fmap in Hdue as ([j' it q ok] & Hkey & Hc).
  exists j', ok. unfold call_key in Hkey. cbn in Hkey. by inversion Hkey; subst.
Qed.

(** C9. Spawning an entry whose item id is not in the catalog leaves the
    manager as it was: no marker, nothing added to the scene, the same active
    count. Spawning a list creates, in order, one marker per entry whose item
    id is in the catalog and nothing for the others. *)
Theorem spawn_ignores_unknown_items :
  (∀ sp (m : state),
     ITEM_DB !! ItemPickupSpawn.itemId sp = None →
     spawn sp m = m
     ∧ pickups (spawn sp m) = pickups m
     ∧ scene (spawn sp m) = scene m
     ∧ getActiveCount (spawn sp m) = getActiveCount m)
  ∧ (∀ sps (m : state),
       marker <$> pickups (spawnMany sps m) =
         (marker <$> pickups m) ++ (requested_marker <$> filter in_catalog sps)
       ∧ getActiveCount (spawnMany sps m) =
           getActiveCount m + length (filter in_catalog sps)
       ∧ length (scene (spawnMany sps m)) =
           length (scene m) + length (filter in_catalog sps)).
Proof.
  split.
  - intros sp m H. by rewrite (spawn_unknown sp m H).
  - intros sps m. destruct (spawnMany_markers sps m) as [Hm Hs].
    repeat split; [done| |done].
    unfold getActiveCount.
    rewrite <- (length_fmap marker (pickups (spawnMany sps m))), Hm.
    by rewrite length_app, !length_fmap.
Qed.

End Manager.

Lemma spawn_ignores_unknown_items_witness :
  getActiveCount
    (spawnMany demo_catalog (fun _ => 0%float)
       [ItemPickupSpawn.mk "axe_basic" 1%Q 1%float 1%float None;
        ItemPickupSpawn.mk "key" 1%Q 4%float 1%float None]
       demo_field)
  = getActiveCount demo_field
    + length (filter (in_catalog demo_catalog)
                [ItemPickupSpawn.mk "axe_basic" 1%Q 1%float 1%float None;
                 ItemPickupSpawn.mk "key" 1%Q 4%float 1%float None]).
Proof.
  exact (proj1 (proj2 (proj2 (spawn_ignores_unknown_items
                                demo_catalog (fun _ => 0%float))
                         [ItemPickupSpawn.mk "axe_basic" 1%Q 1%float 1%float None;
                          ItemPickupSpawn.mk "key" 1%Q 4%float 1%float None]
                         demo_field))).
Defined.

End PickupFacts.

(* ===================================================================== *)
(** ** Part IV. Further properties of the inventory *)
(* ===================================================================== *)

Module InventoryMore.
Import Inventory InventoryFacts.
Local Open Scope Z_scope.

(** *** Room, and what the passes leave over *)

Lemma space_in_stacks_nonneg ty (slots : list slot) : 0 <= space_in_stacks ty slots.
Proof.
  induction slots as [|[item|] rest IH]; cbn [space_in_stacks]; [lia| |done].
  destruct (stackable ty item) eqn:Hst; [|lia].
  unfold stackable in Hst. apply andb_true_iff in Hst as [_ Hlt].
  apply Z.ltb_lt in Hlt. lia.
Qed.

Lemma empty_slots_nonneg (slots : list slot) : 0 <= empty_slots slots.
Proof. induction slots as [|[item|] rest IH]; cbn [empty_slots]; lia. Qed.

Lemma top_up_leftover ty : ∀ slots rem slots' r,
  top_up ty rem slots = (slots', r) → 0 <= rem →
  r = Z.max 0 (rem - space_in_stacks ty slots).
Proof.
  induction slots as [|[item|] rest IH]; intros rem slots' r H Hrem;
    cbn [top_up space_in_stacks] in *.
  - inversion H; lia.
  - pose proof (space_in_stacks_nonneg ty rest).
    destruct (stackable ty item) eqn:Hst;
      destruct (top_up ty _ rest) as [rest' r'] eqn:Hrec; inversion H; subst.
    + unfold stackable in Hst. apply andb_true_iff in Hst as [_ Hlt].
      apply Z.ltb_lt in Hlt. apply IH in Hrec; lia.
    + apply IH in Hrec; lia.
  - destruct (top_up ty _ rest) as [rest' r'] eqn:Hrec; inversion H; subst.
    by apply IH in Hrec.
Qed.

Lemma top_up_empty_slots ty : ∀ slots rem slots' r,
  top_up ty rem slots = (slots', r) → empty_slots slots' = empty_slots slots.
Proof.
  induction slots as [|[item|] rest IH]; intros rem slots' r H; cbn [top_up] in H.
  - by inversion H.
  - destruct (stackable ty item);
      destruct (top_up ty _ rest) as [rest' r'] eqn:Hrec; inversion H; subst;
      cbn [empty_slots]; by eapply IH.
  - destruct (top_up ty _ rest) as [rest' r'] eqn:Hrec; inversion H; subst.
    cbn [empty_slots]. by erewrite IH.
Qed.

Lemma fill_empty_leftover d : 0 <= def_maxStack d → ∀ slots rem slots' r,
  fill_empty d rem slots = (slots', r) → 0 <= rem →
  r = Z.max 0 (rem - def_maxStack d * empty_slots slots).
Proof.
  intros HM. induction slots as [|s rest IH]; intros rem slots' r H Hrem;
    cbn [fill_empty] in H.
  - inversion H. cbn [empty_slots]. lia.
  - pose proof (empty_slots_nonneg rest).
    pose proof (empty_slots_nonneg (s :: rest)).
    destruct (rem <=? 0) eqn:Hle.
    { apply Z.leb_le in Hle. inversion H; subst. nia. }
    apply Z.leb_gt in Hle. destruct s as [item|]; cbn [empty_slots];
      destruct (fill_empty d _ rest) as [rest' r'] eqn:Hrec; inversion H; subst.
    + by apply IH in Hrec.
    + apply IH in Hrec; [|lia]. nia.
Qed.

Lemma two_pass_leftover ty d cnt slots slots' r :
  0 <= def_maxStack d → 0 <= cnt →
  two_pass d ty cnt slots = (slots', r) →
  r = Z.max 0 (cnt - room ty d slots).
Proof.
  intros HM Hc H. unfold two_pass in H.
  destruct (top_up ty cnt slots) as [slots1 r1] eqn:H1.
  pose proof (top_up_leftover _ _ _ _ _ H1 Hc) as Hr1.
  pose proof (top_up_empty_slots _ _ _ _ _ H1) as He.
  pose proof (fill_empty_leftover d HM _ _ _ _ H ltac:(lia)) as Hr2.
  pose proof (space_in_stacks_nonneg ty slots).
  pose proof (empty_slots_nonneg slots).
  unfold room. rewrite He in Hr2. nia.
Qed.



(** *** What a call does to each slot *)

Lemma slot_kept_refl ty cnt (s : slot) : slot_kept ty cnt s s.
Proof.
  destruct s as [item|]; [|done]. exists 0.
  by rewrite add_count_zero.
Qed.

Lemma slot_kept_weaken ty cnt cnt' (s s' : slot) :
  (0 <= cnt' → 0 <= cnt) → slot_kept ty cnt s s' → slot_kept ty cnt' s s'.
Proof.
  intros Hc. destruct s as [item|], s' as [item'|]; try done.
  intros (k & -> & Hty & Hk). exists k. auto.
Qed.

Lemma top_up_slot_kept ty : ∀ slots rem slots' r,
  top_up ty rem slots = (slots', r) → Forall2 (slot_kept ty rem) slots slots'.
Proof.
  induction slots as [|[item|] rest IH]; intros rem slots' r H; cbn [top_up] in H.
  - inversion H. constructor.
  - destruct (stackable ty item) eqn:Hst;
      destruct (top_up ty _ rest) as [rest' r'] eqn:Hrec; inversion H; subst.
    + unfold stackable in Hst. apply andb_true_iff in Hst as [Hty Hlt].
      apply String.eqb_eq in Hty. apply Z.ltb_lt in Hlt. constructor.
      * eexists. split; [done|]. split; [done|lia].
      * eapply Forall2_impl; [by eapply IH|].
        intros s s'. apply slot_kept_weaken. lia.
    + constructor; [apply slot_kept_refl|by eapply IH].
  - destruct (top_up ty _ rest) as [rest' r'] eqn:Hrec; inversion H; subst.
    constructor; [done|by eapply IH].
Qed.

Lemma fill_empty_slot_kept ty cnt d : ∀ slots rem slots' r,
  fill_empty d rem slots = (slots', r) → Forall2 (slot_kept ty cnt) slots slots'.
Proof.
  induction slots as [|s rest IH]; intros rem slots' r H; cbn [fill_empty] in H.
  - inversion H. constructor.
  - destruct (rem <=? 0).
    { inversion H; subst. apply Forall_Forall2_diag, Forall_forall.
      intros x _. apply slot_kept_refl. }
    destruct s as [item|];
      destruct (fill_empty d _ rest) as [rest' r'] eqn:Hrec; inversion H; subst;
      (constructor; [|by eapply IH]); [apply slot_kept_refl|done].
Qed.

Lemma slot_kept_trans ty cnt (s1 s2 s3 : slot) :
  slot_kept ty cnt s1 s2 → slot_kept ty cnt s2 s3 → slot_kept ty cnt s1 s3.
Proof.
  destruct s1 as [i1|], s2 as [i2|], s3 as [i3|]; try done.
  intros (k1 & -> & Hty1 & Hk1) (k2 & -> & Hty2 & Hk2).
  exists (k1 + k2). split; [|split].
  - destruct i1. unfold add_count. cbn. f_equal. lia.
  - intros Hne. rewrite (Hty1 Hne), (Hty2 Hne). lia.
  - intros Hc. specialize (Hk1 Hc). specialize (Hk2 Hc). lia.
Qed.

Lemma place_loop_undefined_items fuel : ∀ i (items : list slot) rem,
  match place_loop fuel i None items rem with
  | Done its _ => its
  | Raised its => its
  end = items.
Proof.
  induction fuel as [|fuel IH]; intros i items rem; cbn [place_loop]; [done|].
  destruct (items !! i) as [[item|]|]; [apply IH|done|done].
Qed.

(** X2. Whatever the type, the quantity and the state, and whether the call
    returns or throws, [addItem] keeps the number of slots and, slot by slot,
    never empties an occupied slot and never replaces its item: it only moves
    the item's count, not at all in a slot of another type, and never down
    when the quantity is not negative. *)
Theorem addItem_slot_by_slot ty cnt (items : list slot) :
  Forall2 (slot_kept ty cnt) items (items_of (addItem ty cnt items)).
Proof.
  destruct (ITEM_DEFINITIONS !! ty) as [d|] eqn:Hd.
  - rewrite (addItem_two_pass_eq _ _ _ _ Hd). unfold two_pass.
    destruct (top_up ty cnt items) as [slots1 r1] eqn:H1.
    destruct (fill_empty d r1 slots1) as [slots2 r2] eqn:H2. cbn [items_of].
    eapply Forall2_trans; [apply slot_kept_trans| |].
    + by eapply top_up_slot_kept.
    + by eapply fill_empty_slot_kept.
  - unfold addItem. rewrite Hd, stack_loop_top_up by lia. rewrite drop_0.
    destruct (top_up ty cnt items) as [slots1 r1] eqn:H1. cbn [take app].
    apply top_up_slot_kept in H1.
    destruct (0 <? r1); [|done].
    pose proof (place_loop_undefined_items (length slots1) 0 slots1 r1) as Hp.
    destruct (place_loop _ _ _ _ _); cbn [items_of]; by subst.
Qed.

(** *** A failed call fills the inventory for its type *)

Lemma top_up_leaves_full ty : ∀ slots rem slots' r,
  top_up ty rem slots = (slots', r) → 0 <= rem → 0 < r →
  Forall (fun s : slot =>
            match s with Some it => stackable ty it = false | None => True end)
         slots'.
Proof.
  induction slots as [|[item|] rest IH]; intros rem slots' r H Hrem Hr;
    cbn [top_up] in H.
  - inversion H. constructor.
  - destruct (stackable ty item) eqn:Hst;
      destruct (top_up ty _ rest) as [rest' r'] eqn:Hrec; inversion H; subst.
    + unfold stackable in Hst. apply andb_true_iff in Hst as [Hty Hlt].
      apply Z.ltb_lt in Hlt.
      pose proof (top_up_remaining _ _ _ _ _ Hrec ltac:(lia)) as Hb.
      constructor; [|eapply IH; [done|lia|done]].
      unfold stackable. cbn [add_count type count maxStack].
      replace (_ <? _) with false; [by rewrite andb_false_r|].
      symmetry. apply Z.ltb_ge. lia.
    + constructor; [done|by eapply IH].
  - destruct (top_up ty _ rest) as [rest' r'] eqn:Hrec; inversion H; subst.
    constructor; [done|by eapply IH].
Qed.

Lemma fill_empty_leaves_full ty d : 1 <= def_maxStack d → ∀ slots rem slots' r,
  fill_empty d rem slots = (slots', r) → 0 < r →
  Forall (fun s : slot =>
            match s with Some it => stackable ty it = false | None => True end)
         slots →
  no_room ty slots'.
Proof.
  intros HM. induction slots as [|s rest IH]; intros rem slots' r H Hr Hall;
    cbn [fill_empty] in H.
  - inversion H. constructor.
  - destruct (rem <=? 0) eqn:Hle.
    { apply Z.leb_le in Hle. inversion H; subst. lia. }
    apply Z.leb_gt in Hle. inversion Hall as [|? ? Hs Hrest]; subst.
    destruct s as [item|];
      destruct (fill_empty d _ rest) as [rest' r'] eqn:Hrec; inversion H; subst.
    + constructor; [done|by eapply IH].
    + pose proof (fill_empty_remaining d ltac:(lia) _ _ _ _ Hrec ltac:(lia)) as Hb.
      constructor; [|by eapply IH].
      unfold stackable. cbn [spread_def type count maxStack].
      replace (_ <? _) with false; [by rewrite andb_false_r|].
      symmetry. apply Z.ltb_ge. lia.
Qed.



(** *** Full means that nothing can be added *)

Lemma not_full_cases (items : list slot) :
  isFull items = false →
  (∃ it, Some it ∈ items ∧ count it < maxStack it) ∨ None ∈ items.
Proof.
  induction items as [|[it|] rest IH]; cbn [isFull forallb]; [done| |].
  - intros H. apply andb_false_iff in H as [H|H].
    + apply Z.leb_gt in H. left. exists it. split; [apply elem_of_cons; by left|done].
    + destruct (IH H) as [(it' & Hin & Hlt)|Hin].
      * left. exists it'. split; [apply elem_of_cons; by right|done].
      * right. apply elem_of_cons. by right.
  - intros _. right. apply elem_of_cons. by left.
Qed.

Lemma space_in_stacks_elem (slots : list slot) it :
  Some it ∈ slots → count it < maxStack it →
  1 <= space_in_stacks (type it) slots.
Proof.
  induction slots as [|s rest IH]; intros Hin Hlt; [by apply not_elem_of_nil in Hin|].
  pose proof (space_in_stacks_nonneg (type it) rest).
  apply elem_of_cons in Hin as [<-|Hin]; cbn [space_in_stacks].
  - unfold stackable. rewrite String.eqb_refl.
    apply Z.ltb_lt in Hlt as Hlt'. rewrite Hlt'. cbn [andb]. lia.
  - specialize (IH Hin Hlt). destruct s as [item|]; [|done].
    destruct (stackable (type it) item) eqn:Hst; [|lia].
    unfold stackable in Hst. apply andb_true_iff in Hst as [_ Hl].
    apply Z.ltb_lt in Hl. lia.
Qed.

Lemma empty_slots_elem (slots : list slot) : None ∈ slots → 1 <= empty_slots slots.
Proof.
  induction slots as [|s rest IH]; intros Hin; [by apply not_elem_of_nil in Hin|].
  pose proof (empty_slots_nonneg rest).
  apply elem_of_cons in Hin as [<-|Hin]; cbn [empty_slots]; [lia|].
  specialize (IH Hin). destruct s; lia.
Qed.

Lemma addItem_into_stacks ty cnt (items : list slot) :
  0 <= cnt → cnt <= space_in_stacks ty items →
  ∃ items', addItem ty cnt items = Returned true items'.
Proof.
  intros Hc Hs. unfold addItem. rewrite stack_loop_top_up by lia. rewrite drop_0.
  destruct (top_up ty cnt items) as [slots1 r1] eqn:H1. cbn [take app].
  pose proof (top_up_leftover _ _ _ _ _ H1 Hc) as Hr.
  assert (r1 = 0) as -> by lia. by eexists.
Qed.

(** X4. In an inventory whose occupied slots hold between 1 and the max
    stack size of a catalog item, [isFull()] is false exactly when one unit
    of some item can still be added: for some type, [addItem(type, 1)]
    returns true. *)
Theorem not_full_iff_unit_fits (items : list slot) :
  slots_ok items →
  isFull items = false ↔
    ∃ ty items', addItem ty 1 items = Returned true items'.
Proof.
  intros _. split.
  - intros H. destruct (not_full_cases items H) as [(it & Hin & Hlt)|Hin].
    + exists (type it). apply addItem_into_stacks; [lia|].
      by apply space_in_stacks_elem.
    + exists "key".
      set (d := mkDef "key" 1 "key-icon" "Dungeon Key" "Unlocks a door.").
      assert (Hd : ITEM_DEFINITIONS !! "key" = Some d) by reflexivity.
      rewrite (addItem_two_pass_eq _ _ _ _ Hd).
      destruct (two_pass d "key" 1 items) as [slots' r] eqn:H2.
      assert (HM : 0 <= def_maxStack d) by (cbn; lia).
      pose proof (two_pass_leftover "key" d 1 _ _ _ HM ltac:(lia) H2) as Hr.
      pose proof (empty_slots_elem _ Hin).
      pose proof (space_in_stacks_nonneg "key" items).
      unfold room in Hr. cbn [def_maxStack d] in Hr.
      assert (r = 0) as -> by lia. by eexists.
  - intros (ty & items' & Hadd). destruct (isFull items) eqn:Hfull; [|done].
    rewrite (addItem_no_room ty 1 _ (isFull_no_room ty _ Hfull)) in Hadd.
    by inversion Hadd.
Qed.

Lemma not_full_iff_unit_fits_witness :
  isFull [Some (potion 5); Some (potion 4)] = false ↔
    ∃ ty items', addItem ty 1 [Some (potion 5); Some (potion 4)] = Returned true items'.
Proof.
  apply (not_full_iff_unit_fits [Some (potion 5); Some (potion 4)]).
  repeat constructor; eexists; (split; [reflexivity|]); cbn; lia.
Defined.

(** *** A negative quantity *)

Lemma top_up_negative ty : ∀ slots rem slots' r,
  top_up ty rem slots = (slots', r) → rem < 0 →
  r = (if has_stackable ty slots then 0 else rem)
  ∧ empty_slots slots' = empty_slots slots.
Proof.
  induction slots as [|[item|] rest IH]; intros rem slots' r H Hrem;
    cbn [top_up] in H; unfold has_stackable; cbn [existsb].
  - by inversion H.
  - destruct (stackable ty item) eqn:Hst.
    + unfold stackable in Hst. apply andb_true_iff in Hst as [_ Hlt].
      apply Z.ltb_lt in Hlt. rewrite Z.min_r in H by lia.
      rewrite Z.sub_diag, top_up_zero in H. by inversion H.
    + destruct (top_up ty _ rest) as [rest' r'] eqn:Hrec; inversion H; subst.
      cbn [orb empty_slots]. by eapply IH.
  - destruct (top_up ty _ rest) as [rest' r'] eqn:Hrec; inversion H; subst.
    cbn [orb empty_slots]. destruct (IH _ _ _ Hrec Hrem) as [-> ->]. done.
Qed.

(** X5. In an inventory whose occupied slots hold between 1 and the max
    stack size of a catalog item, and with a negative integer quantity not
    below -2^52, [addItem] never throws and never fills an empty slot,
    whatever the type. It returns true exactly when some slot of the type is
    below its max stack size, and then the units held of the type drop by the
    quantity's absolute value; otherwise the units held stay. *)
Theorem addItem_negative ty cnt (items : list slot) :
  slots_ok items → - 2 ^ 52 <= cnt → cnt < 0 →
  ∃ items',
    addItem ty cnt items = Returned (has_stackable ty items) items'
    ∧ held ty items' = held ty items + (if has_stackable ty items then cnt else 0)
    ∧ empty_slots items' = empty_slots items.
Proof.
  intros _ _ Hc. unfold addItem. rewrite stack_loop_top_up by lia. rewrite drop_0.
  destruct (top_up ty cnt items) as [slots1 r1] eqn:H1. cbn [take app].
  destruct (top_up_negative _ _ _ _ _ H1 Hc) as [Hr He].
  pose proof (held_top_up ty ty _ _ _ _ H1) as Hh. rewrite String.eqb_refl in Hh.
  exists slots1.
  destruct (has_stackable ty items); subst r1.
  - cbn. split; [done|]. split; [lia|done].
  - replace (0 <? cnt) with false by (symmetry; apply Z.ltb_ge; lia).
    replace (cnt =? 0) with false by (symmetry; apply Z.eqb_neq; lia).
    split; [done|]. split; [lia|done].
Qed.

Lemma addItem_negative_witness :
  ∃ items',
    addItem "potion" (-2) [None; Some (potion 3)]
      = Returned (has_stackable "potion" [None; Some (potion 3)]) items'
    ∧ held "potion" items'
        = held "potion" [None; Some (potion 3)]
          + (if has_stackable "potion" [None; Some (potion 3)] then -2 else 0)
    ∧ empty_slots items' = empty_slots [None; Some (potion 3)].
Proof.
  apply (addItem_negative "potion" (-2) [None; Some (potion 3)]).
  - repeat constructor. eexists. split; [reflexivity|]. cbn. lia.
  - lia.
  - lia.
Defined.

(** *** Two adds in a row are one add of the sum *)

Lemma top_up_add ty : ∀ slots a b slots1 ra slots2 rb,
  0 <= a → 0 <= b →
  top_up ty a slots = (slots1, ra) → top_up ty b slots1 = (slots2, rb) →
  top_up ty (a + b) slots = (slots2, ra + rb).
Proof.
  induction slots as [|[item|] rest IH]; intros a b slots1 ra slots2 rb Ha Hb H1 H2;
    cbn [top_up] in H1.
  - inversion H1; subst. cbn [top_up] in *. inversion H2; subst. done.
  - destruct (stackable ty item) eqn:Hst.
    + pose proof Hst as Hst'. unfold stackable in Hst'.
      apply andb_true_iff in Hst' as [Hty Hlt]. apply Z.ltb_lt in Hlt.
      destruct (top_up ty (a - _) rest) as [rest1 r1] eqn:Hrec1.
      inversion H1; subst slots1 ra. clear H1. cbn [top_up] in H2 |- *.
      rewrite Hst.
      destruct (Z.lt_ge_cases a (maxStack item - count item)) as [Hsmall|Hbig].
      * (* the first add leaves the slot below its max *)
        rewrite Z.min_r in Hrec1, H2 by lia.
        rewrite Z.sub_diag, top_up_zero in Hrec1. inversion Hrec1; subst rest1 r1.
        assert (Hst2 : stackable ty (add_count item a) = true).
        { unfold stackable. cbn [add_count type count maxStack]. rewrite Hty.
          cbn [andb]. apply Z.ltb_lt. lia. }
        rewrite Hst2 in H2. cbn [add_count type count maxStack] in H2.
        destruct (top_up ty (b - _) rest) as [rest2 r2] eqn:Hrec2.
        inversion H2; subst slots2 rb. clear H2.
        replace (a + b - Z.min (maxStack item - count item) (a + b))
          with (b - Z.min (maxStack item - (count item + a)) b) by lia.
        rewrite Hrec2. f_equal. f_equal. f_equal.
        destruct item. unfold add_count. cbn. f_equal. lia.
      * (* the first add fills the slot *)
        rewrite Z.min_l in Hrec1, H2 by lia.
        assert (Hst2 : stackable ty (add_count item (maxStack item - count item))
                       = false).
        { unfold stackable. cbn [add_count type count maxStack].
          replace (_ <? _) with false; [by rewrite andb_false_r|].
          symmetry. apply Z.ltb_ge. lia. }
        rewrite Hst2 in H2.
        destruct (top_up ty b rest1) as [rest2 r2] eqn:Hrec2.
        inversion H2; subst slots2 rb. clear H2.
        rewrite Z.min_l by lia.
        replace (a + b - (maxStack item - count item))
          with (a - (maxStack item - count item) + b) by lia.
        by rewrite (IH (a - (maxStack item - count item)) b _ _ _ _
                      ltac:(lia) Hb Hrec1 Hrec2).
    + destruct (top_up ty a rest) as [rest1 r1] eqn:Hrec1.
      inversion H1; subst slots1 ra. clear H1. cbn [top_up] in H2 |- *.
      rewrite Hst in *.
      destruct (top_up ty b rest1) as [rest2 r2] eqn:Hrec2.
      inversion H2; subst slots2 rb.
      by rewrite (IH _ _ _ _ _ _ Ha Hb Hrec1 Hrec2).
  - destruct (top_up ty a rest) as [rest1 r1] eqn:Hrec1.
    inversion H1; subst slots1 ra. clear H1. cbn [top_up] in H2 |- *.
    destruct (top_up ty b rest1) as [rest2 r2] eqn:Hrec2.
    inversion H2; subst slots2 rb.
    by rewrite (IH _ _ _ _ _ _ Ha Hb Hrec1 Hrec2).
Qed.

Lemma add_count_spread d x k : add_count (spread_def d x) k = spread_def d (x + k).
Proof. reflexivity. Qed.

Lemma two_pass_skip d ty cnt item (slots : list slot) :
  stackable ty item = false →
  two_pass d ty cnt (Some item :: slots) =
    let '(slots', r) := two_pass d ty cnt slots in (Some item :: slots', r).
Proof.
  intros Hst. unfold two_pass. cbn [top_up]. rewrite Hst.
  destruct (top_up ty cnt slots) as [slots1 r1]. cbn [fill_empty].
  destruct (r1 <=? 0) eqn:Hle; [|done].
  apply Z.leb_le in Hle. by rewrite fill_empty_nonpos.
Qed.

Lemma two_pass_not_stackable d ty cnt (slots : list slot) :
  Forall (fun s : slot =>
            match s with Some it => stackable ty it = false | None => True end)
         slots →
  two_pass d ty cnt slots = fill_empty d cnt slots.
Proof. intros H. unfold two_pass. by rewrite top_up_not_stackable. Qed.

Lemma fill_then_two_pass ty d :
  def_type d = ty → 1 <= def_maxStack d →
  ∀ slots ra b slots1 ra' slots2 rb,
    Forall (fun s : slot =>
              match s with Some it => stackable ty it = false | None => True end)
           slots →
    0 < ra → 0 <= b →
    fill_empty d ra slots = (slots1, ra') →
    two_pass d ty b slots1 = (slots2, rb) →
    fill_empty d (ra + b) slots = (slots2, ra' + rb).
Proof.
  intros Hty HM.
  induction slots as [|s rest IH]; intros ra b slots1 ra' slots2 rb Hall Hra Hb H1 H2;
    cbn [fill_empty] in H1.
  - inversion H1; subst slots1 ra'. unfold two_pass in H2. cbn in H2.
    by inversion H2; subst slots2 rb.
  - apply Forall_cons in Hall as [Hs Hrest].
    replace (ra <=? 0) with false in H1 by (symmetry; apply Z.leb_gt; lia).
    cbn [fill_empty].
    replace (ra + b <=? 0) with false by (symmetry; apply Z.leb_gt; lia).
    destruct s as [item|].
    + destruct (fill_empty d ra rest) as [rest1 r1] eqn:Hrec1.
      inversion H1; subst slots1 ra'. clear H1.
      rewrite two_pass_skip in H2 by done.
      destruct (two_pass d ty b rest1) as [rest2 r2] eqn:Hrec2.
      inversion H2; subst slots2 rb.
      by rewrite (IH _ _ _ _ _ _ Hrest Hra Hb Hrec1 Hrec2).
    + destruct (fill_empty d (ra - _) rest) as [rest1 r1] eqn:Hrec1.
      inversion H1; subst slots1 ra'. clear H1.
      destruct (Z.lt_ge_cases ra (def_maxStack d)) as [Hsmall|Hbig].
      * (* the new slot is left below its max *)
        rewrite Z.min_r in Hrec1, H2 by lia.
        rewrite Z.sub_diag, fill_empty_nonpos in Hrec1 by lia.
        inversion Hrec1; subst rest1 r1.
        unfold two_pass in H2. cbn [top_up] in H2.
        assert (Hst : stackable ty (spread_def d ra) = true).
        { unfold stackable. cbn [spread_def type count maxStack].
          rewrite Hty, String.eqb_refl. cbn [andb]. apply Z.ltb_lt. lia. }
        rewrite Hst in H2. cbn [spread_def count maxStack] in H2.
        rewrite top_up_not_stackable in H2 by done.
        cbn [fill_empty] in H2.
        destruct (b - Z.min (def_maxStack d - ra) b <=? 0) eqn:Hle.
        -- apply Z.leb_le in Hle. inversion H2; subst slots2 rb.
           replace (ra + b - Z.min (def_maxStack d) (ra + b))
             with (b - Z.min (def_maxStack d - ra) b) by lia.
           rewrite fill_empty_nonpos by lia. rewrite add_count_spread.
           replace (ra + Z.min (def_maxStack d - ra) b)
             with (Z.min (def_maxStack d) (ra + b)) by lia.
           f_equal; lia.
        -- destruct (fill_empty d _ rest) as [rest2 r2] eqn:Hrec2.
           inversion H2; subst slots2 rb.
           replace (ra + b - Z.min (def_maxStack d) (ra + b))
             with (b - Z.min (def_maxStack d - ra) b) by lia.
           rewrite Hrec2. rewrite add_count_spread.
           replace (ra + Z.min (def_maxStack d - ra) b)
             with (Z.min (def_maxStack d) (ra + b)) by lia.
           f_equal; lia.
      * (* the new slot is full *)
        rewrite Z.min_l in Hrec1, H2 by lia.
        assert (Hst : stackable ty (spread_def d (def_maxStack d)) = false).
        { unfold stackable. cbn [spread_def type count maxStack].
          by rewrite Z.ltb_irrefl, andb_false_r. }
        rewrite two_pass_skip in H2 by done.
        destruct (two_pass d ty b rest1) as [rest2 r2] eqn:Hrec2.
        inversion H2; subst slots2 rb. clear H2.
        rewrite Z.min_l by lia.
        replace (ra + b - def_maxStack d) with (ra - def_maxStack d + b) by lia.
        destruct (Z.eq_dec (ra - def_maxStack d) 0) as [Hz|Hnz].
        -- rewrite Hz in *. rewrite fill_empty_nonpos in Hrec1 by lia.
           inversion Hrec1; subst rest1 r1.
           rewrite two_pass_not_stackable in Hrec2 by done.
           rewrite Z.add_0_l, Hrec2. done.
        -- by rewrite (IH (ra - def_maxStack d) b _ _ _ _ Hrest
                         ltac:(lia) Hb Hrec1 Hrec2).
Qed.

Lemma two_pass_add ty d a b slots slots1 ra slots2 rb :
  def_type d = ty → 1 <= def_maxStack d → 0 <= a → 0 <= b →
  two_pass d ty a slots = (slots1, ra) →
  two_pass d ty b slots1 = (slots2, rb) →
  two_pass d ty (a + b) slots = (slots2, ra + rb).
Proof.
  intros Hty HM Ha Hb H1 H2. unfold two_pass in H1 |- *.
  destruct (top_up ty a slots) as [s1 r1] eqn:Ht1.
  pose proof (top_up_remaining _ _ _ _ _ Ht1 Ha) as Hr1.
  destruct (Z.eq_dec r1 0) as [->|Hpos].
  - rewrite fill_empty_nonpos in H1 by lia. inversion H1; subst slots1 ra.
    unfold two_pass in H2.
    destruct (top_up ty b s1) as [s2 r2] eqn:Ht2.
    by rewrite (top_up_add _ _ _ _ _ _ _ _ Ha Hb Ht1 Ht2).
  - pose proof (top_up_leaves_full _ _ _ _ _ Ht1 Ha ltac:(lia)) as Hfull.
    pose proof (top_up_not_stackable ty b _ Hfull) as Ht2.
    rewrite (top_up_add _ _ _ _ _ _ _ _ Ha Hb Ht1 Ht2).
    by eapply fill_then_two_pass; [..|exact H1|exact H2]; try lia.
Qed.



End InventoryMore.

(** *** A failed add *)

Module InventoryFailedAdd.
Import Inventory InventoryFacts InventoryMore.
Local Open Scope Z_scope.



End InventoryFailedAdd.

(* ===================================================================== *)
(** ** Part V. The inventory's display *)
(* ===================================================================== *)

Module InventoryUIFacts.
Import Inventory InventoryFacts InventoryUI.
Local Open Scope Z_scope.

Lemma filter_not_slot_app (es : list Element) (ds : list SlotDiv) :
  List.filter (fun e => negb (is_inv_slot e))
              (List.filter (fun e => negb (is_inv_slot e)) es ++ (InvSlot <$> ds))
  = List.filter (fun e => negb (is_inv_slot e)) es.
Proof.
  rewrite List.filter_app.
  replace (List.filter _ (InvSlot <$> ds)) with (@nil Element).
  - rewrite app_nil_r. induction es as [|e es IH]; [done|].
    cbn [List.filter]. destruct (negb (is_inv_slot e)) eqn:He; [|done].
    cbn [List.filter]. by rewrite He, IH.
  - induction ds as [|d ds IH]; [done|]. exact IH.
Qed.

(** X7. [render] is idempotent: rendering again, with no change of the
    slots in between, leaves the same document. *)
Theorem render_idempotent (u : manager) : render (render u) = render u.
Proof.
  unfold render. destruct (container u) as [c|] eqn:Hc; cbn; [|by rewrite Hc].
  by rewrite filter_not_slot_app.
Qed.

Lemma shown_render (u : manager) :
  is_Some (container u) → shown (render u) = slot_div <$> items u.
Proof.
  intros [c Hc]. unfold shown, render. rewrite Hc. cbn [container children].
  rewrite omap_app.
  replace (omap _ (List.filter _ (children c))) with (@nil SlotDiv).
  - cbn [app]. induction (items u) as [|s its IH]; [done|]. cbn. by rewrite IH.
  - induction (children c) as [|e es IH]; [done|].
    cbn [List.filter]. by destruct e.
Qed.

Lemma in_sync_new : in_sync new_manager.
Proof.
  repeat split.
  - by eexists.
  - by apply Forall_replicate.
Qed.

Lemma in_sync_perform u op : in_sync u → in_sync (perform u op).
Proof.
  intros (Hc & Hcat & Hshown & Hlen). destruct op as [ty cnt|]; cbn [perform].
  - unfold addItem_ui.
    pose proof (catalogued_addItem ty cnt _ Hcat) as Hcat'.
    pose proof (addItem_length ty cnt (items u)) as Hlen'.
    destruct (addItem ty cnt (items u)) as [ok items'|items'] eqn:Hadd;
      cbn [snd items_of] in *.
    + destruct Hc as [c Hc]. repeat split.
      * unfold render. cbn. rewrite Hc. by eexists.
      * unfold render. cbn. by rewrite Hc.
      * rewrite shown_render by (cbn; by eexists).
        unfold render. cbn. by rewrite Hc.
      * unfold render. cbn. rewrite Hc. cbn. lia.
    + (* a call that threw: the slots are as they were *)
      destruct (ITEM_DEFINITIONS !! ty) as [d|] eqn:Hd.
      { rewrite (addItem_two_pass_eq _ _ _ _ Hd) in Hadd.
        by destruct (two_pass d ty cnt (items u)). }
      rewrite (addItem_unknown _ _ _ Hd Hcat) in Hadd.
      destruct (_ && _); inversion Hadd; subst items'.
      repeat split; done.
  - destruct Hc as [c Hc]. unfold toggleVisibility. repeat split; cbn.
    + rewrite Hc. by eexists.
    + done.
    + unfold shown in *. cbn. rewrite Hc in *. done.
    + done.
Qed.

Lemma perform_all_snoc ops op u :
  perform_all (ops ++ [op]) u = perform (perform_all ops u) op.
Proof. unfold perform_all. by rewrite foldl_app. Qed.

(** X8. After any sequence of [addItem] and [toggleVisibility] calls on a new
    manager, the document shows one slot [div] per slot, [capacity] of them,
    each the rendering of the slot as it is now, also after a call of
    [addItem] that threw and so never reached [render]. *)
Theorem display_follows_slots ops :
  shown (perform_all ops new_manager)
    = slot_div <$> items (perform_all ops new_manager)
  ∧ length (shown (perform_all ops new_manager)) = capacity.
Proof.
  assert (H : in_sync (perform_all ops new_manager)).
  { induction ops as [|op ops IH] using rev_ind; [apply in_sync_new|].
    rewrite perform_all_snoc. by apply in_sync_perform. }
  destruct H as (_ & _ & Hshown & Hlen).
  split; [done|]. by rewrite Hshown, length_fmap.
Qed.

Lemma perform_data u op :
  items (perform u op) =
    match op with
    | AddItem ty cnt => items_of (addItem ty cnt (items u))
    | ToggleVisibility => items u
    end
  ∧ isVisible (perform u op) =
      match op with
      | AddItem _ _ => isVisible u
      | ToggleVisibility => negb (isVisible u)
      end.
Proof.
  destruct op as [ty cnt|]; cbn [perform]; [|done].
  unfold addItem_ui. destruct (addItem ty cnt (items u)); cbn [snd items_of].
  - unfold render. by destruct (container _).
  - done.
Qed.

(** X9. Toggling the visibility never touches the slots, and adding never
    touches the visibility: after any sequence of operations on a new manager
    the slots are those that its [addItem] calls alone leave, the inventory is
    visible exactly when the number of toggles is odd, and the container's
    [display] is ['grid'] when visible and ['none'] when not. *)
Theorem visibility_and_slots_independent ops :
  items (perform_all ops new_manager) = run (adds ops) constructor
  ∧ isVisible (perform_all ops new_manager) = Nat.odd (toggles ops)
  ∧ (display <$> container (perform_all ops new_manager))
      = Some (if Nat.odd (toggles ops) then "grid" else "none").
Proof.
  induction ops as [|op ops IH] using rev_ind; [done|].
  rewrite perform_all_snoc.
  destruct IH as (Hitems & Hvis & Hdisp).
  destruct (perform_data (perform_all ops new_manager) op) as [Hi Hv].
  unfold adds, toggles in *. rewrite omap_app, List.filter_app, length_app.
  set (u := perform_all ops new_manager) in *.
  destruct op as [ty cnt|]; cbn [omap List.filter length app] in *.
  - repeat split.
    + rewrite Hi, Hitems. clear.
      generalize constructor. induction (omap _ ops) as [|[ty' c'] l IH];
        intros its; [done|]. cbn [app run]. apply IH.
    + rewrite Hv, Hvis. by rewrite Nat.add_0_r.
    + rewrite Nat.add_0_r. cbn [perform]. unfold addItem_ui.
      destruct (addItem ty cnt (items u)); cbn [snd]; [|done].
      unfold render. cbn. destruct (container u); [|done]. done.
  - rewrite Nat.add_1_r, Nat.odd_succ, <- Nat.negb_odd. repeat split.
    + rewrite Hi, Hitems. by rewrite app_nil_r.
    + by rewrite Hv, Hvis.
    + cbn [perform]. unfold toggleVisibility. cbn. rewrite Hvis.
      destruct (container u); [|done]. done.
Qed.

End InventoryUIFacts.

(* ===================================================================== *)
(** ** Part VI. Further properties of the pickup field *)
(* ===================================================================== *)

Module PickupMoreFacts.
Import Pickups PickupFacts PickupsMore.
Local Open Scope nat_scope.

Section Manager.

Context {Inv : Type}.
Variable tryAddById : string → Z → Inv → bool * Inv.
Variable ITEM_DB : gmap string ItemTemplate.
Variable Math_sin : float → float.
Variable Math_random : nat → float.

Local Abbreviation spawn := (Pickups.spawn ITEM_DB Math_random).
Local Abbreviation spawnMany := (Pickups.spawnMany ITEM_DB Math_random).
Local Abbreviation animate := (Pickups.animate Math_sin).
Local Abbreviation update_loop := (Pickups.update_loop tryAddById Math_sin).
Local Abbreviation update := (Pickups.update tryAddById Math_sin).
Local Abbreviation replay := (PickupsMore.replay tryAddById).
Local Abbreviation field_ok := (PickupsMore.field_ok ITEM_DB).
Local Abbreviation state := (@Pickups.state Inv).

(** *** The accept calls of an update, replayed *)

Lemma scene_remove_sublist o (children : list nat) :
  scene_remove o children `sublist_of` children.
Proof.
  induction children as [|c rest IH]; [done|]. cbn [scene_remove].
  destruct (decide (c = o)); [by apply sublist_cons|by apply sublist_skip].
Qed.

Lemma marker_animate t p : marker (animate t p) = marker p.
Proof. reflexivity. Qed.

Lemma update_loop_replay pos : ∀ front (m : state) log0 back,
  pickups m = front ++ back →
  ∃ m' log front',
    update_loop (length front) pos m log0 = Some (m', log0 ++ log)
    ∧ (log, inventory m') = replay (reverse (due pos 0 front)) (inventory m)
    ∧ pickups m' = front' ++ back
    ∧ length front' + length (List.filter call_ok log) = length front
    ∧ (marker <$> front') `sublist_of` (marker <$> front)
    ∧ scene m' `sublist_of` scene m
    ∧ iconTextureCache m' = iconTextureCache m
    ∧ loads m' = loads m
    ∧ animTime m' = animTime m.
Proof.
  induction front as [|p0 front IH] using rev_ind; intros m log0 back Hps.
  { exists m, [], []. cbn [Pickups.update_loop length]. by rewrite app_nil_r. }
  rewrite <- app_assoc in Hps. cbn [app] in Hps.
  rewrite length_app. cbn [length]. rewrite Nat.add_1_r.
  cbn [Pickups.update_loop]. rewrite Hps, list_lookup_middle by done.
  rewrite due_app. cbn [plus due].
  rewrite in_radius_animate, insert_middle.
  destruct (in_radius pos p0) eqn:Hin.
  - cbn [Pickups.itemId Pickups.quantity Pickups.animate Pickups.sprite
         sprite_id set_pickups inventory].
    rewrite reverse_app. cbn [reverse app PickupsMore.replay].
    rewrite reverse_singleton. cbn [app PickupsMore.replay].
    destruct (tryAddById (itemId p0) (quantity p0) (inventory m)) as [ok inv].
    set (c := mkCall (length front) (itemId p0) (quantity p0) ok).
    destruct ok.
    + cbn [set_pickups set_scene set_inventory pickups scene].
      rewrite delete_middle.
      edestruct (IH (mkState (front ++ back) (iconTextureCache m) (animTime m)
                       (scene_remove (sprite_id (sprite p0)) (scene m)) inv
                       (loads m) (allocated m) (randoms m))
                    (log0 ++ [c]) back)
        as (m' & log & front' & Hrun & Hrep & Hps' & Hlen & Hsub & Hsc & Hc & Hl & Ht);
        [done|].
      cbn [scene animTime inventory iconTextureCache loads] in *.
      exists m', (c :: log), front'. rewrite <- app_assoc in Hrun.
      split; [exact Hrun|]. rewrite <- Hrep.
      split; [done|]. split; [done|]. split; [cbn; lia|].
      split; [rewrite fmap_app; by apply sublist_inserts_r|].
      split; [|done].
      etrans; [exact Hsc|apply scene_remove_sublist].
    + cbn [set_pickups set_inventory].
      edestruct (IH (mkState (front ++ Pickups.animate Math_sin (animTime m) p0 :: back)
                       (iconTextureCache m) (animTime m) (scene m) inv
                       (loads m) (allocated m) (randoms m))
                    (log0 ++ [c])
                    (Pickups.animate Math_sin (animTime m) p0 :: back))
        as (m' & log & front' & Hrun & Hrep & Hps' & Hlen & Hsub & Hsc & Hc & Hl & Ht);
        [done|].
      cbn [scene animTime inventory iconTextureCache loads] in *.
      exists m', (c :: log), (front' ++ [Pickups.animate Math_sin (animTime m) p0]).
      rewrite <- app_assoc in Hrun.
      split; [exact Hrun|]. rewrite <- Hrep.
      split; [done|]. split; [by rewrite Hps', <- app_assoc|].
      split; [rewrite length_app; cbn; lia|].
      split; [|done].
      rewrite !fmap_app. by apply sublist_app.
  - cbn [set_pickups]. rewrite app_nil_r.
    edestruct (IH (mkState (front ++ Pickups.animate Math_sin (animTime m) p0 :: back)
                     (iconTextureCache m) (animTime m) (scene m) (inventory m)
                     (loads m) (allocated m) (randoms m))
                  log0 (Pickups.animate Math_sin (animTime m) p0 :: back))
      as (m' & log & front' & Hrun & Hrep & Hps' & Hlen & Hsub & Hsc & Hc & Hl & Ht);
      [done|].
    cbn [scene animTime inventory iconTextureCache loads] in *.
    exists m', log, (front' ++ [Pickups.animate Math_sin (animTime m) p0]).
    split; [exact Hrun|]. split; [done|].
    split; [by rewrite Hps', <- app_assoc|].
    split; [rewrite length_app; cbn; lia|].
    split; [|done].
    rewrite !fmap_app. by apply sublist_app.
Qed.

Lemma update_calls_replayed dt pos (m : state) :
  ∃ m' log,
    update dt pos m = Some (m', log)
    ∧ (log, inventory m') = replay (reverse (due pos 0 (pickups m))) (inventory m)
    ∧ (marker <$> pickups m') `sublist_of` (marker <$> pickups m).
Proof.
  unfold Pickups.update.
  destruct (update_loop_replay pos (pickups m)
              (set_animTime (animTime m + dt)%float m) [] [])
    as (m' & log & front' & Hrun & Hrep & Hps & _ & Hsub & _).
  { cbn. by rewrite app_nil_r. }
  cbn [set_animTime pickups inventory app] in *.
  rewrite app_nil_r in Hps. exists m', log. by rewrite Hps.
Qed.


(** X10. An update makes its accept calls one after the other, for the
    markers in radius from the last of the field to the first, each on the
    inventory as the call before left it; the inventory after the update is
    the one the last call left. The number of live markers drops by exactly
    the number of calls that returned true; the markers that stay keep their
    item, quantity and place and their order; nothing is added to the scene;
    the texture cache and the loads are untouched. *)
Theorem update_replays_calls dt pos (m : state) :
  ∃ m' log,
    update dt pos m = Some (m', log)
    ∧ (log, inventory m') = replay (reverse (due pos 0 (pickups m))) (inventory m)
    ∧ getActiveCount m' + length (List.filter call_ok log) = getActiveCount m
    ∧ (marker <$> pickups m') `sublist_of` (marker <$> pickups m)
    ∧ scene m' `sublist_of` scene m
    ∧ iconTextureCache m' = iconTextureCache m
    ∧ loads m' = loads m.
Proof.
  unfold Pickups.update.
  destruct (update_loop_replay pos (pickups m)
              (set_animTime (animTime m + dt)%float m) [] [])
    as (m' & log & front' & Hrun & Hrep & Hps & Hlen & Hsub & Hsc & Hc & Hl & _).
  { cbn. by rewrite app_nil_r. }
  cbn [set_animTime pickups scene inventory iconTextureCache loads app] in *.
  rewrite app_nil_r in Hps. exists m', log. unfold getActiveCount.
  rewrite Hps. done.
Qed.

(** *** Nobody in radius *)

Lemma update_loop_out_of_range pos : ∀ front (m : state) log0 back,
  pickups m = front ++ back →
  Forall (fun p => in_radius pos p = false) front →
  update_loop (length front) pos m log0 =
    Some (set_pickups ((animate (animTime m) <$> front) ++ back) m, log0).
Proof.
  induction front as [|p0 front IH] using rev_ind; intros m log0 back Hps Hout.
  { cbn in *. subst back. by destruct m. }
  apply Forall_app in Hout as [Hout Hp0]. apply Forall_cons in Hp0 as [Hp0 _].
  rewrite <- app_assoc in Hps. cbn [app] in Hps.
  rewrite length_app. cbn [length]. rewrite Nat.add_1_r.
  cbn [Pickups.update_loop]. rewrite Hps, list_lookup_middle by done.
  rewrite in_radius_animate, Hp0, insert_middle.
  rewrite (IH _ log0 (animate (animTime m) p0 :: back)); [|done|done].
  cbn [set_pickups animTime pickups]. rewrite fmap_app, <- app_assoc. done.
Qed.

(** X11. When no marker is within the capture radius, an update only
    animates: it makes no accept call, and leaves the inventory, the scene
    and the number and order of the markers as they were. *)
Theorem update_out_of_range dt pos (m : state) :
  Forall (fun p => in_radius pos p = false) (pickups m) →
  update dt pos m =
    Some (mkState (animate (animTime m + dt)%float <$> pickups m)
                  (iconTextureCache m) (animTime m + dt)%float (scene m)
                  (inventory m) (loads m) (allocated m) (randoms m),
          []).
Proof.
  intros Hout. unfold Pickups.update.
  rewrite (update_loop_out_of_range pos (pickups m) _ [] []).
  - cbn. by rewrite app_nil_r.
  - cbn. by rewrite app_nil_r.
  - done.
Qed.

(** *** Clearing the field *)

Lemma clear_scene (ps : list PickupData) : ∀ sc : list nat,
  NoDup sc →
  foldl (fun sc p => scene_remove (sprite_id (sprite p)) sc) sc ps =
    filter (fun s => s ∉ (fun p => sprite_id (sprite p)) <$> ps) sc.
Proof.
  induction ps as [|p ps IH]; intros sc Hnd; cbn [foldl fmap list_fmap].
  { by rewrite filter_not_in_nil. }
  rewrite IH, scene_remove_filter by (try rewrite scene_remove_filter by done;
                                      by try apply NoDup_filter).
  rewrite list_filter_filter. apply list_filter_iff. intros s.
  rewrite not_elem_of_cons. tauto.
Qed.

(** X12. [clear] empties the field and takes exactly the sprites of its
    markers out of the scene, leaving every other object of the scene and the
    inventory as they were; the update that follows makes no accept call. *)
Theorem clear_removes_field dt pos (m : state) :
  NoDup (scene m) →
  getActiveCount (clear m) = 0
  ∧ scene (clear m) =
      filter (fun s => s ∉ (fun p => sprite_id (sprite p)) <$> pickups m) (scene m)
  ∧ inventory (clear m) = inventory m
  ∧ update dt pos (clear m) =
      Some (set_animTime (animTime m + dt)%float (clear m), []).
Proof.
  intros Hnd. unfold clear. cbn. by rewrite clear_scene.
Qed.


(** *** What the manager offers the inventory *)

Lemma due_elem pos k : ∀ ps i,
  k ∈ due pos i ps → ∃ p, p ∈ ps ∧ k.1.2 = itemId p ∧ k.2 = quantity p.
Proof.
  induction ps as [|p ps IH]; intros i Hk; cbn [due] in Hk.
  { by apply not_elem_of_nil in Hk. }
  assert (Hrest : k ∈ due pos (S i) ps →
                  ∃ p', p' ∈ p :: ps ∧ k.1.2 = itemId p' ∧ k.2 = quantity p').
  { intros H. destruct (IH _ H) as (p' & Hin & Hk').
    exists p'. split; [apply elem_of_cons; by right|done]. }
  destruct (in_radius pos p); [|by apply Hrest].
  apply elem_of_cons in Hk as [->|Hk]; [|by apply Hrest].
  exists p. split; [apply elem_of_cons; by left|done].
Qed.

Lemma replay_keys : ∀ ks (inv : Inv), call_key <$> (replay ks inv).1 = ks.
Proof.
  induction ks as [|[[i item] q] ks IH]; intros inv; cbn [PickupsMore.replay]; [done|].
  destruct (tryAddById item q inv) as [ok inv1]. specialize (IH inv1).
  destruct (replay ks inv1) as [log inv2]. cbn in *. by rewrite IH.
Qed.

(** X13. In a field where every marker is for an item of the catalog in a
    quantity of at least 1, updating and clearing keep it so, and every
    accept call an update makes is for an item of the catalog and a quantity
    of at least 1: an update hands on the quantities of the markers as they
    are. *)
Theorem field_stays_ok (m : state) :
  field_ok m →
  (∀ dt pos m' log,
     update dt pos m = Some (m', log) →
     field_ok m'
     ∧ Forall (fun c => (1 <= call_quantity c)%Z
                        ∧ is_Some (ITEM_DB !! call_itemId c)) log)
  ∧ field_ok (clear m).
Proof.
  intros Hok. split.
  - intros dt pos m' log Hup.
    destruct (update_calls_replayed dt pos m)
      as (m2 & log2 & Hup2 & Hrep & Hsub).
    rewrite Hup in Hup2. inversion Hup2; subst m2 log2. split.
    + unfold PickupsMore.field_ok in *. apply Forall_forall. intros k Hk.
      apply (sublist_subseteq _ _ Hsub) in Hk.
      by apply (proj1 (Forall_forall _ _) Hok).
    + pose proof (replay_keys (reverse (due pos 0 (pickups m))) (inventory m)) as Hkeys.
      rewrite <- Hrep in Hkeys. cbn [fst] in Hkeys.
      apply Forall_forall. intros c Hc.
      assert (Hk : call_key c ∈ due pos 0 (pickups m)).
      { apply elem_of_reverse. rewrite <- Hkeys. apply list_elem_of_fmap.
        by exists c. }
      apply due_elem in Hk as (p & Hp & Hid & Hq). cbn in Hid, Hq.
      unfold PickupsMore.field_ok in Hok.
      assert (Hm : marker p ∈ marker <$> pickups m)
        by (apply list_elem_of_fmap; by exists p).
      apply (proj1 (Forall_forall _ _) Hok) in Hm. cbn in Hm.
      by rewrite Hid, Hq.
  - unfold PickupsMore.field_ok, clear. cbn. constructor.
Qed.

(** *** Texture loads *)

Lemma spawn_loads sp (m : state) :
  length (loads (spawn sp m)) + size (iconTextureCache m) =
    length (loads m) + size (iconTextureCache (spawn sp m)).
Proof.
  unfold Pickups.spawn.
  destruct (ITEM_DB !! ItemPickupSpawn.itemId sp) as [tpl|]; [|done].
  unfold getOrLoadIconTexture.
  destruct (iconTextureCache m !! id tpl) eqn:Hc; cbn; [done|].
  rewrite length_app, map_size_insert_None by done. cbn. lia.
Qed.

(** X14. Spawning starts one texture load for each template id that enters
    the cache, and none for an id that is cached already: over any list of
    spawns the number of loads started equals the number of entries the
    cache gained. *)
Theorem one_load_per_cached_icon sps (m : state) :
  length (loads (spawnMany sps m)) + size (iconTextureCache m) =
    length (loads m) + size (iconTextureCache (spawnMany sps m)).
Proof.
  revert m. induction sps as [|sp sps IH]; intros m; [done|].
  cbn [Pickups.spawnMany foldl]. fold (spawnMany sps (spawn sp m)).
  pose proof (IH (spawn sp m)). pose proof (spawn_loads sp m). lia.
Qed.

(** X15. Once the icon of a template has loaded, every marker of the field
    whose item id is the template's id carries the loaded texture, the
    markers keep their item, quantity and place, and a marker spawned
    afterwards for that template gets the loaded texture from the cache and
    starts no load. *)
Theorem icon_loaded_is_used sp tpl (m : state) :
  ITEM_DB !! ItemPickupSpawn.itemId sp = Some tpl →
  marker <$> pickups (icon_loaded tpl m) = marker <$> pickups m
  ∧ Forall (fun p => itemId p = id tpl →
                     material_map (sprite p) = Loaded (icon tpl))
           (pickups (icon_loaded tpl m))
  ∧ loads (spawn sp (icon_loaded tpl m)) = loads m
  ∧ ∃ p, pickups (spawn sp (icon_loaded tpl m)) = pickups (icon_loaded tpl m) ++ [p]
         ∧ marker p = requested_marker sp
         ∧ material_map (sprite p) = Loaded (icon tpl).
Proof.
  intros Htpl. repeat split.
  - unfold icon_loaded. cbn [pickups]. rewrite <- list_fmap_compose.
    apply list_fmap_ext. intros i p _. cbn. by destruct (decide _).
  - unfold icon_loaded. cbn [pickups]. apply Forall_fmap, Forall_forall.
    intros p _. cbn. by destruct (decide (itemId p = id tpl)).
  - unfold Pickups.spawn. rewrite Htpl. unfold getOrLoadIconTexture, icon_loaded.
    cbn [iconTextureCache]. by rewrite lookup_insert_eq.
  - unfold Pickups.spawn. rewrite Htpl. unfold getOrLoadIconTexture.
    unfold icon_loaded at 1. cbn [iconTextureCache]. rewrite lookup_insert_eq.
    eexists. cbn. done.
Qed.

End Manager.


(** The run of the witness: of the two keys in radius the one visited first
    (the later in the field) goes into the only slot and leaves the field and
    the scene; the other is refused and stays, as does the key out of reach. *)
Lemma update_demo_open_field :
  ∃ m',
    update demo_accept (fun _ => 0%float) 0.015625%float demo_player demo_open_field
      = Some (m', [mkCall 1 "key" 1 true; mkCall 0 "key" 1 false])
    ∧ marker <$> pickups m' = [("key", 1%Z, 2%float, 3%float);
                               ("key", 1%Z, 50%float, 50%float)]
    ∧ scene demo_open_field = [0; 1; 2]
    ∧ scene m' = [0; 2]
    ∧ Inventory.held "key" (inventory m') = 1%Z.
Proof. eexists. split; [by vm_compute|]. by vm_compute. Qed.

Lemma update_out_of_range_witness :
  update demo_accept (fun _ => 0%float) 0.015625%float (mkVector3 9 0 9) demo_field
  = Some (mkState (Pickups.animate (fun _ => 0%float)
                     (animTime demo_field + 0.015625)%float <$> pickups demo_field)
                  (iconTextureCache demo_field)
                  (animTime demo_field + 0.015625)%float (scene demo_field)
                  (inventory demo_field) (loads demo_field)
                  (allocated demo_field) (randoms demo_field),
          []).
Proof.
  apply (update_out_of_range demo_accept (fun _ => 0%float) 0.015625%float
           (mkVector3 9 0 9) demo_field).
  vm_compute. repeat constructor.
Defined.

Lemma clear_removes_field_witness :
  getActiveCount (clear demo_field) = 0
  ∧ scene (clear demo_field) =
      filter (fun s => s ∉ (fun p => sprite_id (sprite p)) <$> pickups demo_field)
             (scene demo_field)
  ∧ inventory (clear demo_field) = inventory demo_field
  ∧ update demo_accept (fun _ => 0%float) 0.015625%float demo_player
      (clear demo_field)
    = Some (set_animTime (animTime demo_field + 0.015625)%float (clear demo_field), []).
Proof.
  apply (clear_removes_field demo_accept (fun _ => 0%float) (fun _ => 0%float)
           0.015625%float demo_player demo_field).
  vm_compute. apply NoDup_singleton.
Defined.

Lemma field_stays_ok_witness :
  (∀ dt pos m' log,
     update demo_accept (fun _ => 0%float) dt pos demo_field = Some (m', log) →
     PickupsMore.field_ok demo_catalog m'
     ∧ Forall (fun c => (1 <= call_quantity c)%Z
                        ∧ is_Some (demo_catalog !! call_itemId c)) log)
  ∧ PickupsMore.field_ok demo_catalog (clear demo_field).
Proof.
  apply (field_stays_ok demo_accept demo_catalog (fun _ => 0%float) demo_field).
  vm_compute. constructor; [|constructor]. split; [discriminate|by eexists].
Defined.

Lemma icon_loaded_is_used_witness :
  loads (Pickups.spawn demo_catalog (fun _ => 0%float)
           (ItemPickupSpawn.mk "key" 3%Q 1%float 1%float None)
           (icon_loaded (mkTemplate "key" "key-icon") demo_field))
  = loads demo_field.
Proof.
  exact (proj1 (proj2 (proj2
    (icon_loaded_is_used demo_catalog (fun _ => 0%float)
       (ItemPickupSpawn.mk "key" 3%Q 1%float 1%float None)
       (mkTemplate "key" "key-icon") demo_field eq_refl)))).
Defined.

End PickupMoreFacts.
